(** * Commit-message pipeline: diff parser, prompt templates, commit cache
      and commit analyzer, embedded from the TypeScript sources.

    Conventions of the embedding.
    - A JavaScript string is a [string]; each [ascii] stands for one UTF-16
      code unit below 256.
    - A thrown value is a [JsError]: the class it is an instance of and its
      [message].  A computation that may throw returns a [Result].
    - A promise is a [Settle]: it never settles, or settles after some
      milliseconds with a [Result].
    - The JavaScript [Map] of the cache is an association list in insertion
      order. *)

From Stdlib Require Import Strings.String Strings.Ascii Lists.List Arith.Arith
  ZArith.ZArith NArith.NArith Bool.Bool micromega.Lia Sorting.Permutation Sorting.Sorted
  Numbers.DecimalString.
Import ListNotations.
Open Scope string_scope.

Set Implicit Arguments.

(* ================================================================== *)
(** ** JavaScript string primitives *)
(* ================================================================== *)

Module JsString.

(** The double-quote character. *)
Definition dquote : ascii := ascii_of_nat 34.
Definition squote : ascii := ascii_of_nat 39.
Definition LF : ascii := ascii_of_nat 10.
Definition CR : ascii := ascii_of_nat 13.

Definition code (a : ascii) : nat := nat_of_ascii a.

Definition inRange (lo hi : nat) (a : ascii) : bool :=
  Nat.leb lo (code a) && Nat.leb (code a) hi.

(** [\s] of a regular expression and the white space removed by [trim],
    restricted to code units below 256: TAB, LF, VT, FF, CR, SPACE, NBSP. *)
Definition isSpace (a : ascii) : bool :=
  inRange 9 13 a || Nat.eqb (code a) 32 || Nat.eqb (code a) 160.

Definition isDigit (a : ascii) : bool := inRange 48 57 a.
Definition isUpper (a : ascii) : bool := inRange 65 90 a.
Definition isLower (a : ascii) : bool := inRange 97 122 a.
Definition isLetter (a : ascii) : bool := isUpper a || isLower a.
Definition isAlnum (a : ascii) : bool := isLetter a || isDigit a.
Definition isQuote (a : ascii) : bool := Ascii.eqb a squote || Ascii.eqb a dquote.

(** [s.startsWith(p)] *)
Definition startsWith (s p : string) : bool := String.prefix p s.

Fixpoint rev_append (r s : string) : string :=
  match r with
  | EmptyString => s
  | String c r' => rev_append r' (String c s)
  end.

(** [s.split(sep)] for a non-empty separator: the pieces between the
    successive leftmost occurrences of [sep].  [skip] counts the characters
    of an occurrence still to be passed over and [cur] is the piece being
    collected, reversed. *)
Fixpoint splitAux (sep s : string) (skip : nat) (cur : string) : list string :=
  match s with
  | EmptyString => [rev_append cur EmptyString]
  | String c s' =>
      match skip with
      | S k => splitAux sep s' k cur
      | O =>
          if String.prefix sep s
          then rev_append cur EmptyString :: splitAux sep s' (String.length sep - 1) EmptyString
          else splitAux sep s' 0 (String c cur)
      end
  end.

Definition split (s sep : string) : list string := splitAux sep s 0 EmptyString.

Fixpoint trimStart (s : string) : string :=
  match s with
  | EmptyString => EmptyString
  | String c s' => if isSpace c then trimStart s' else s
  end.

Fixpoint trimEnd (s : string) : string :=
  match s with
  | EmptyString => EmptyString
  | String c s' =>
      match trimEnd s' with
      | EmptyString => if isSpace c then EmptyString else String c EmptyString
      | t => String c t
      end
  end.

(** [s.trim()] *)
Definition trim (s : string) : string := trimEnd (trimStart s).

(** [s.slice(1)] *)
Definition slice1 (s : string) : string :=
  match s with
  | EmptyString => EmptyString
  | String _ s' => s'
  end.

(** [s.slice(0, n)] *)
Fixpoint slice0 (n : nat) (s : string) : string :=
  match n, s with
  | S k, String c s' => String c (slice0 k s')
  | _, _ => EmptyString
  end.

(** [xs.join(sep)] *)
Fixpoint join (sep : string) (xs : list string) : string :=
  match xs with
  | [] => EmptyString
  | [x] => x
  | x :: rest => x ++ sep ++ join sep rest
  end.

(** [s.includes(p)] *)
Fixpoint includes (s p : string) : bool :=
  String.prefix p s ||
  match s with
  | EmptyString => false
  | String _ s' => includes s' p
  end.

(** A string is truthy when it is not empty. *)
Definition truthy (s : string) : bool :=
  match s with EmptyString => false | _ => true end.

(** Decimal rendering of a non-negative integer in a template literal. *)
Definition ofNat (n : nat) : string := NilEmpty.string_of_uint (Nat.to_uint n).

(** Code-unit order of the default [Array.prototype.sort] comparator. *)
Fixpoint leb (s t : string) : bool :=
  match s, t with
  | EmptyString, _ => true
  | String _ _, EmptyString => false
  | String a s', String b t' =>
      if Nat.ltb (code a) (code b) then true
      else if Nat.ltb (code b) (code a) then false
      else leb s' t'
  end.

End JsString.

(* ================================================================== *)
(** ** A backtracking matcher for the regular expressions of the sources *)
(* ================================================================== *)

Module Regex.
Import JsString.

Inductive regex : Type :=
| Eps
| Chr (p : ascii -> bool)
| Seq (r1 r2 : regex)
| Opt (r : regex)          (* r?  greedy *)
| Star (r : regex)         (* r*  greedy *)
| Group (i : nat) (r : regex).

Definition Plus (r : regex) : regex := Seq r (Star r).

(** r{n,} *)
Fixpoint AtLeast (n : nat) (r : regex) : regex :=
  match n with
  | O => Star r
  | S k => Seq r (AtLeast k r)
  end.

(** A literal, matched code unit by code unit with [eq]. *)
Fixpoint Lit (eq : ascii -> ascii -> bool) (s : string) : regex :=
  match s with
  | EmptyString => Eps
  | String c s' => Seq (Chr (eq c)) (Lit eq s')
  end.

Definition captures := list (nat * string).

Fixpoint capture (i : nat) (c : captures) : string :=
  match c with
  | [] => EmptyString            (* an unmatched group substitutes as empty *)
  | (j, s) :: c' => if Nat.eqb i j then s else capture i c'
  end.

(** The text consumed between [s] and its suffix [rest]. *)
Definition consumed (s rest : string) : string :=
  slice0 (String.length s - String.length rest) s.

(** [rmatch r s c k]: match [r] at the start of [s], then run the
    continuation [k] on what is left; alternatives are tried in the order
    of a backtracking matcher (greedy quantifiers first take, then skip). *)
Fixpoint rmatch (R : Type) (r : regex) (s : string) (c : captures)
    (k : string -> captures -> option R) {struct r} : option R :=
  match r with
  | Eps => k s c
  | Chr p =>
      match s with
      | String a s' => if p a then k s' c else None
      | EmptyString => None
      end
  | Seq r1 r2 => rmatch r1 s c (fun s' c' => rmatch r2 s' c' k)
  | Opt r1 =>
      match rmatch r1 s c k with
      | Some x => Some x
      | None => k s c
      end
  | Star r1 =>
      (fix star (fuel : nat) (s : string) (c : captures) {struct fuel} : option R :=
         match fuel with
         | O => k s c
         | S f =>
             match rmatch r1 s c
                     (fun s' c' =>
                        if Nat.ltb (String.length s') (String.length s)
                        then star f s' c' else None) with
             | Some x => Some x
             | None => k s c
             end
         end) (S (String.length s)) s c
  | Group i r1 =>
      rmatch r1 s c (fun s' c' => k s' ((i, consumed s s') :: c'))
  end.

(** One match attempt at the start of [s]: what is left and the groups. *)
Definition execAt (r : regex) (s : string) : option (string * captures) :=
  rmatch r s [] (fun s' c => Some (s', c)).

(** [s.match(r)] without the global flag: the leftmost match. *)
Fixpoint search (r : regex) (s : string) : option captures :=
  match execAt r s with
  | Some (_, c) => Some c
  | None =>
      match s with
      | EmptyString => None
      | String _ s' => search r s'
      end
  end.

(** [s.replace(r, repl)] with the global flag; [skip] counts the
    characters of the current match still to be dropped. *)
Fixpoint replaceAllAux (r : regex) (repl : captures -> string) (s : string)
    (skip : nat) : string :=
  match skip with
  | S k =>
      match s with
      | EmptyString => EmptyString
      | String _ s' => replaceAllAux r repl s' k
      end
  | O =>
      match execAt r s with
      | Some (rest, c) =>
          match String.length s - String.length rest with
          | O =>
              repl c ++
              match s with
              | EmptyString => EmptyString
              | String a s' => String a (replaceAllAux r repl s' 0)
              end
          | S m =>
              repl c ++
              match s with
              | EmptyString => EmptyString
              | String _ s' => replaceAllAux r repl s' m
              end
          end
      | None =>
          match s with
          | EmptyString => EmptyString
          | String a s' => String a (replaceAllAux r repl s' 0)
          end
      end
  end.

Definition replaceAll (r : regex) (repl : captures -> string) (s : string) : string :=
  replaceAllAux r repl s 0.

(** Comparison under the [i] flag, for the letters used in the sources. *)
Definition eqb_ci (a b : ascii) : bool :=
  let up x := if isLower x then ascii_of_nat (code x - 32) else x in
  Ascii.eqb (up a) (up b).

End Regex.

(* ================================================================== *)
(** ** Thrown values and results (errors/commit-errors.ts) *)
(* ================================================================== *)

Module Errors.
Import JsString.

(** The class a thrown value is an instance of. *)
Inductive ErrorClass : Type :=
| ErrorC                  (* new Error(...) *)
| TypeErrorC
| SyntaxErrorC
| LLMTimeoutErrorC
| InvalidResponseErrorC
| NoChangesErrorC
| GitErrorC.

Record JsError : Type := mkError { errClass : ErrorClass; message : string }.

Definition classEqb (a b : ErrorClass) : bool :=
  match a, b with
  | ErrorC, ErrorC | TypeErrorC, TypeErrorC | SyntaxErrorC, SyntaxErrorC
  | LLMTimeoutErrorC, LLMTimeoutErrorC
  | InvalidResponseErrorC, InvalidResponseErrorC
  | NoChangesErrorC, NoChangesErrorC | GitErrorC, GitErrorC => true
  | _, _ => false
  end.

(** [e instanceof C] for one of the leaf classes. *)
Definition instanceOf (e : JsError) (c : ErrorClass) : bool := classEqb (errClass e) c.

Definition LLMTimeoutError (timeoutMs : nat) : JsError :=
  mkError LLMTimeoutErrorC ("LLM request timed out after " ++ ofNat timeoutMs ++ "ms").

Definition InvalidResponseError (details : string) : JsError :=
  mkError InvalidResponseErrorC ("Invalid LLM response: " ++ details).

Definition NoChangesError : JsError :=
  mkError NoChangesErrorC "No changes staged for commit".

Definition GitError (command error : string) : JsError :=
  mkError GitErrorC ("Git command '" ++ command ++ "' failed: " ++ error).

Inductive Result (A : Type) : Type :=
| Ok (a : A)
| Err (e : JsError).
Arguments Ok {A} a.
Arguments Err {A} e.

End Errors.

(* ================================================================== *)
(** ** Promises *)
(* ================================================================== *)

Module Promises.
Import Errors.

(** A promise: it never settles, or settles [t] milliseconds after it was
    created, fulfilled ([Ok]) or rejected ([Err]). *)
Inductive Settle (A : Type) : Type :=
| Never
| At (t : nat) (r : Result A).
Arguments Never {A}.
Arguments At {A} t r.

(** [p] created [d] milliseconds later. *)
Definition delay {A : Type} (d : nat) (p : Settle A) : Settle A :=
  match p with
  | Never => Never
  | At t r => At (d + t) r
  end.

(** [await p], then the rest [f] of an async function. *)
Definition andThen {A B : Type} (p : Settle A) (f : A -> Settle B) : Settle B :=
  match p with
  | Never => Never
  | At t (Ok a) => delay t (f a)
  | At t (Err e) => At t (Err e)
  end.

End Promises.

(* ================================================================== *)
(** ** Diff parser (tools/git/diff-parser.ts) *)
(* ================================================================== *)

Module DiffParser.
Import JsString Regex Errors Promises.

Inductive ChangeKind : Type := modified | added | deleted.

Record ParsedDiff : Type := mkParsedDiff {
  filePath : string;
  additions : list string;
  deletions : list string;
  changeType : ChangeKind
}.

(** An optional property [p?: A] of an object: the object does not have
    it ([Absent]), or has it with a value, which the type lets be
    [undefined] ([Present None]). *)
Inductive Field (A : Type) : Type :=
| Absent
| Present (v : option A).
Arguments Absent {A}.
Arguments Present {A} v.

(** [obj.p]: [undefined] when the property is absent. *)
Definition readField {A : Type} (f : Field A) : option A :=
  match f with
  | Absent => None
  | Present v => v
  end.

(** The property [p] of [{ ...base, ...over }]: the one of [over] when
    [over] has it, also with the value [undefined]; else the one of [base]. *)
Definition spread {A : Type} (base over : Field A) : Field A :=
  match over with
  | Absent => base
  | Present _ => over
  end.

Record DiffParseOptions : Type := mkOptions {
  maxLinesPerFile : Field nat;
  includeContext : Field bool;
  excludePatterns : Field (list string)
}.

Definition DEFAULT_OPTIONS : DiffParseOptions :=
  mkOptions (Present (Some 50)) (Present (Some true))
            (Present (Some ["package-lock.json"; "yarn.lock"; "*.log"])).

(** The default [options = {}]. *)
Definition noOptions : DiffParseOptions := mkOptions Absent Absent Absent.

(** [{ ...DEFAULT_OPTIONS, ...options }] *)
Definition mergeOptions (options : DiffParseOptions) : DiffParseOptions :=
  mkOptions (spread (maxLinesPerFile DEFAULT_OPTIONS) (maxLinesPerFile options))
            (spread (includeContext DEFAULT_OPTIONS) (includeContext options))
            (spread (excludePatterns DEFAULT_OPTIONS) (excludePatterns options)).

(** The token pattern: an optional quote (group 1), 32 or more of
    [a-zA-Z0-9], an optional quote (group 2); global. *)
Definition reToken : regex :=
  Seq (Opt (Group 1 (Chr isQuote)))
      (Seq (AtLeast 32 (Chr isAlnum)) (Opt (Group 2 (Chr isQuote)))).

(** The password pattern, global and case-insensitive: the word password,
    then group 1 = optional quote, \s*, one of [:=], \s*, optional quote,
    then one or more characters other than a quote, a closing parenthesis
    or white space. *)
Definition rePassword : regex :=
  Seq (Lit eqb_ci "password")
      (Seq (Group 1
              (Seq (Opt (Chr isQuote))
                 (Seq (Star (Chr isSpace))
                    (Seq (Chr (fun a => Ascii.eqb a ":" || Ascii.eqb a "="))
                       (Seq (Star (Chr isSpace)) (Opt (Chr isQuote)))))))
           (Plus (Chr (fun a => negb (isQuote a || Ascii.eqb a ")" || isSpace a))))).

(** /[a-zA-Z0-9._%+-]+@[a-zA-Z0-9.-]+\.[a-zA-Z]{2,}/g *)
Definition reEmail : regex :=
  let local a := isAlnum a || Ascii.eqb a "." || Ascii.eqb a "_" || Ascii.eqb a "%"
                 || Ascii.eqb a "+" || Ascii.eqb a "-" in
  let domain a := isAlnum a || Ascii.eqb a "." || Ascii.eqb a "-" in
  Seq (Plus (Chr local))
      (Seq (Chr (Ascii.eqb "@"))
         (Seq (Plus (Chr domain))
            (Seq (Chr (Ascii.eqb ".")) (AtLeast 2 (Chr isLetter))))).

(** /a\/(.+) b\//  where [.] is any code unit but a line terminator *)
Definition rePath : regex :=
  let dot a := negb (Ascii.eqb a LF || Ascii.eqb a CR) in
  Seq (Lit Ascii.eqb "a/") (Seq (Group 1 (Plus (Chr dot))) (Lit Ascii.eqb " b/")).

Definition sanitizeLine (line : string) : string :=
  trim
    (replaceAll reEmail (fun _ => "[EMAIL]")
       (replaceAll rePassword (fun c => "password" ++ capture 1 c ++ "[REDACTED]")
          (replaceAll reToken (fun _ => "[REDACTED]") line))).

(** [additions.length < (maxLines ?? Infinity)] *)
Definition belowCap (n : nat) (maxLines : option nat) : bool :=
  match maxLines with
  | Some m => Nat.ltb n m
  | None => true
  end.

(** The loop of [parseChunk]; both arrays only grow at the end. *)
Fixpoint parseChunkLoop (lines : list string) (maxLines : option nat)
    (adds dels : list string) : list string * list string :=
  match lines with
  | [] => (adds, dels)
  | line :: rest =>
      if startsWith line "+" && negb (startsWith line "+++") then
        if belowCap (List.length adds) maxLines
        then parseChunkLoop rest maxLines (adds ++ [sanitizeLine (slice1 line)]) dels
        else parseChunkLoop rest maxLines adds dels
      else if startsWith line "-" && negb (startsWith line "---") then
        if belowCap (List.length dels) maxLines
        then parseChunkLoop rest maxLines adds (dels ++ [sanitizeLine (slice1 line)])
        else parseChunkLoop rest maxLines adds dels
      else parseChunkLoop rest maxLines adds dels
  end.

Definition parseChunk (lines : list string) (maxLines : option nat)
  : list string * list string :=
  parseChunkLoop lines maxLines [] [].

Definition determineChangeType (adds dels : list string) : ChangeKind :=
  if Nat.ltb 0 (List.length adds) && Nat.eqb (List.length dels) 0 then added
  else if Nat.eqb (List.length adds) 0 && Nat.ltb 0 (List.length dels) then deleted
  else modified.

(** [lines[0].match(/a\/(.+) b\//)?.[1] ?? ''] *)
Definition extractPath (chunk : string) : string :=
  match split chunk (String LF EmptyString) with
  | [] => EmptyString
  | line0 :: _ =>
      match search rePath line0 with
      | Some c => capture 1 c
      | None => EmptyString
      end
  end.

Section WithMinimatch.

(** [minimatch(path, pattern)] of the minimatch package. *)
Variable minimatch : string -> string -> bool.

(** [patterns.some(pattern => minimatch(filePath, pattern))], with the
    default [patterns = []] *)
Definition shouldExcludeFile (path : string) (patterns : option (list string)) : bool :=
  match patterns with
  | Some ps => existsb (fun pattern => minimatch path pattern) ps
  | None => false
  end.

(** The body of the loop of [parseDiff] for one chunk: [None] is [continue]. *)
Definition parseFileChunk (opts : DiffParseOptions) (chunk : string) : option ParsedDiff :=
  if negb (truthy (trim chunk)) then None
  else
    let lines := split chunk (String LF EmptyString) in
    let path := extractPath chunk in
    if negb (truthy path) || shouldExcludeFile path (readField (excludePatterns opts))
    then None
    else
      let '(adds, dels) := parseChunk lines (readField (maxLinesPerFile opts)) in
      Some (mkParsedDiff path adds dels (determineChangeType adds dels)).

Fixpoint parseChunks (opts : DiffParseOptions) (chunks : list string) : list ParsedDiff :=
  match chunks with
  | [] => []
  | chunk :: rest =>
      match parseFileChunk opts chunk with
      | Some d => d :: parseChunks opts rest
      | None => parseChunks opts rest
      end
  end.

Definition parseDiff (diff : string) (options : DiffParseOptions) : list ParsedDiff :=
  parseChunks (mergeOptions options) (split diff "diff --git").

(** A value that can reach [parseDiff] at run time, where the parameter
    type [string] is not enforced. *)
Inductive JsValue : Type :=
| JsUndefined
| JsNull
| JsBoolean (b : bool)
| JsNumber (z : Z)
| JsString (s : string).

(** [parseDiff] on a run-time value: the first use of the argument is the
    method call [diff.split('diff --git')]; there is no other check. *)
Definition parseDiffValue (diff : JsValue) (options : DiffParseOptions)
  : Result (list ParsedDiff) :=
  match diff with
  | JsString s => Ok (parseDiff s options)
  | JsUndefined =>
      Err (mkError TypeErrorC "Cannot read properties of undefined (reading 'split')")
  | JsNull =>
      Err (mkError TypeErrorC "Cannot read properties of null (reading 'split')")
  | JsBoolean _ | JsNumber _ =>
      Err (mkError TypeErrorC "diff.split is not a function")
  end.

(** [getStagedDiff(rootDir)]; [gitDiff] is the promise of
    [git.diff(['--cached'])], which is awaited without a timer. *)
Definition getStagedDiff (gitDiff : Settle string) : Settle (list ParsedDiff) :=
  match gitDiff with
  | Never => Never
  | At t (Ok stagedDiff) => At t (Ok (parseDiff stagedDiff noOptions))
  | At t (Err error) =>
      At t (Err (mkError ErrorC ("Failed to get staged diff: " ++ message error)))
  end.

End WithMinimatch.

(** minimatch on a pattern made of literal characters and [*], as the
    default patterns are: a star stands for any run of characters other
    than [/], and a star at the start of a path segment does not match a
    segment that starts with a dot.  [atStart] tells that the path is at the
    start of a segment. *)
Fixpoint globAux (fuel : nat) (pattern path : string) (atStart : bool) : bool :=
  match fuel with
  | O => false
  | S f =>
      match pattern with
      | EmptyString => negb (truthy path)
      | String p pattern' =>
          if Ascii.eqb p "*" then
            match path with
            | EmptyString => globAux f pattern' path false
            | String c path' =>
                if atStart && Ascii.eqb c "." then false
                else if Ascii.eqb c "/" then globAux f pattern' path false
                else globAux f pattern' path false || globAux f pattern path' false
            end
          else
            match path with
            | EmptyString => false
            | String c path' =>
                Ascii.eqb p c && globAux f pattern' path' (Ascii.eqb c "/")
            end
      end
  end.

Definition simpleGlob (path pattern : string) : bool :=
  globAux (String.length pattern + String.length path + 1) pattern path true.

End DiffParser.

(* ================================================================== *)
(** ** LLM types (tools/llm/types.ts) *)
(* ================================================================== *)

Module LLMTypes.

Inductive ChangeType : Type :=
| feat | fix_ | refactor | docs | test | chore | style | perf.

Definition changeTypeName (t : ChangeType) : string :=
  match t with
  | feat => "feat" | fix_ => "fix" | refactor => "refactor" | docs => "docs"
  | test => "test" | chore => "chore" | style => "style" | perf => "perf"
  end.

Definition allChangeTypes : list ChangeType :=
  [feat; fix_; refactor; docs; test; chore; style; perf].

(** The member of the enumeration a string names, if any. *)
Definition changeTypeOfName (s : string) : option ChangeType :=
  find (fun t => String.eqb (changeTypeName t) s) allChangeTypes.

Record ChangeCategory : Type := mkCategory {
  cat_type : ChangeType;
  cat_scope : option string;
  description : string
}.

Record CommitAnalysis : Type := mkAnalysis {
  files : list string;
  summary : string;
  impactedAreas : list string;
  changeTypes : list ChangeCategory;
  breakingChanges : bool
}.

Record LLMResponse : Type := mkResponse {
  commitMessage : string;
  type : ChangeType;
  scope : option string;
  breaking : bool;
  details : option string
}.

End LLMTypes.

(* ================================================================== *)
(** ** Prompt templates (tools/llm/prompt-templates.ts) *)
(* ================================================================== *)

Module PromptTemplates.
Import JsString Regex LLMTypes.

Definition dq : string := String dquote EmptyString.
Definition nl : string := String LF EmptyString.

Definition COMMIT_ANALYSIS_PROMPT : string :=
  "Analyze the following git changes and generate a conventional commit message." ++ nl ++
  "Focus on the main purpose of the changes and categorize them appropriately." ++ nl ++
  nl ++
  "Changes:" ++ nl ++
  "{diff}" ++ nl ++
  nl ++
  "Modified files:" ++ nl ++
  "{files}" ++ nl ++
  nl ++
  "Generate a commit message following these rules:" ++ nl ++
  "1. Use conventional commit format: type(scope): description" ++ nl ++
  "2. Keep the first line under 72 characters" ++ nl ++
  "3. Use present tense (" ++ dq ++ "add" ++ dq ++ " not " ++ dq ++ "added" ++ dq ++ ")" ++ nl ++
  "4. Be descriptive but concise" ++ nl ++
  "5. Include scope if changes are isolated to specific area" ++ nl ++
  "6. Mark breaking changes with BREAKING CHANGE: prefix" ++ nl ++
  nl ++
  "Response must be valid JSON matching this structure:" ++ nl ++
  "{" ++ nl ++
  "  " ++ dq ++ "type" ++ dq ++ ": " ++ dq ++ "feat|fix|refactor|docs|test|chore|style|perf" ++ dq ++ "," ++ nl ++
  "  " ++ dq ++ "scope" ++ dq ++ ": " ++ dq ++ "optional area affected" ++ dq ++ "," ++ nl ++
  "  " ++ dq ++ "commitMessage" ++ dq ++ ": " ++ dq ++ "full commit message" ++ dq ++ "," ++ nl ++
  "  " ++ dq ++ "breaking" ++ dq ++ ": boolean," ++ nl ++
  "  " ++ dq ++ "details" ++ dq ++ ": " ++ dq ++ "optional detailed explanation" ++ dq ++ nl ++
  "}".

Definition MULTI_CHANGE_PROMPT : string :=
  "Analyze multiple changes and generate a commit message that covers all changes:" ++ nl ++
  nl ++
  "{changes}" ++ nl ++
  nl ++
  "Group related changes and generate a commit message that:" ++ nl ++
  "1. Uses the most significant change type" ++ nl ++
  "2. Lists other changes in the body" ++ nl ++
  "3. Separates different changes with blank lines" ++ nl ++
  "4. Marks any breaking changes".

(** The functions below receive the caller's array of file paths; each
    returns its value together with the contents of that array after the
    call, so that a write to the array is visible. *)

(** [files.join(sep)] reads the array. *)
Definition joinFiles (files : list string) (sep : string) : string * list string :=
  (join sep files, files).

Fixpoint insertSorted (x : string) (l : list string) : list string :=
  match l with
  | [] => [x]
  | y :: l' => if JsString.leb x y then x :: l else y :: insertSorted x l'
  end.

Fixpoint sorted (l : list string) : list string :=
  match l with
  | [] => []
  | x :: l' => insertSorted x (sorted l')
  end.

(** [files.sort()]: sorts the array in place by code units and returns the
    same array. *)
Definition sortFiles (files : list string) : list string * list string :=
  (sorted files, sorted files).

(** [(files, type = 'chore') => `${type}: update ${files.join(', ')}`] *)
Definition FALLBACK_COMMIT_TEMPLATE (files : list string) (type : option ChangeType)
  : string * list string :=
  let t := match type with Some t => t | None => chore end in
  let '(joined, files1) := joinFiles files ", " in
  (changeTypeName t ++ ": update " ++ joined, files1).

(** /\s+/g *)
Definition reSpaces : regex := Plus (Chr isSpace).

(** [generateCacheKey(files, diff)] *)
Definition generateCacheKey (files : list string) (diff : string) : string * list string :=
  let '(sortedFiles, files1) := sortFiles files in
  let fileHash := join "|" sortedFiles in
  let diffPreview := replaceAll reSpaces (fun _ => " ") (slice0 100 diff) in
  (fileHash ++ ":" ++ diffPreview, files1).

End PromptTemplates.

(* ================================================================== *)
(** ** Commit cache (tools/cache/commit-cache.ts) *)
(* ================================================================== *)

Module CommitCache.
Import JsString LLMTypes.

Record CacheEntry : Type := mkEntry {
  response : LLMResponse;
  timestamp : Z;
  hitCount : nat
}.

(** The object: the [Map] in insertion order and the two read-only fields. *)
Record CommitCache : Type := mkCache {
  cache : list (string * CacheEntry);
  maxSize : nat;
  ttlMs : Z
}.

(** [new CommitCache(maxSize = 100, ttlHours = 24)] *)
Definition newCommitCache (maxSize : option nat) (ttlHours : option Z) : CommitCache :=
  mkCache []
          (match maxSize with Some m => m | None => 100 end)
          ((match ttlHours with Some h => h | None => 24 end) * 60 * 60 * 1000)%Z.

(** [Map.prototype.get] *)
Fixpoint mapGet (m : list (string * CacheEntry)) (key : string) : option CacheEntry :=
  match m with
  | [] => None
  | (k, e) :: m' => if String.eqb k key then Some e else mapGet m' key
  end.

(** [Map.prototype.set]: a present key keeps its place, a new key goes last. *)
Fixpoint mapSet (m : list (string * CacheEntry)) (key : string) (e : CacheEntry)
  : list (string * CacheEntry) :=
  match m with
  | [] => [(key, e)]
  | (k, e') :: m' =>
      if String.eqb k key then (k, e) :: m' else (k, e') :: mapSet m' key e
  end.

(** [Map.prototype.delete] *)
Fixpoint mapDelete (m : list (string * CacheEntry)) (key : string)
  : list (string * CacheEntry) :=
  match m with
  | [] => []
  | (k, e) :: m' => if String.eqb k key then m' else (k, e) :: mapDelete m' key
  end.

Definition size (c : CommitCache) : nat := List.length (cache c).

Definition withCache (c : CommitCache) (m : list (string * CacheEntry)) : CommitCache :=
  mkCache m (maxSize c) (ttlMs c).

(** [get(key)]; [nowCheck] and [nowTouch] are the values of the two calls
    of [Date.now()], in the expiry test and in the refresh. *)
Definition get (nowCheck nowTouch : Z) (key : string) (c : CommitCache)
  : option LLMResponse * CommitCache :=
  match mapGet (cache c) key with
  | None => (None, c)
  | Some entry =>
      let isExpired := (ttlMs c <? nowCheck - timestamp entry)%Z in
      if isExpired then (None, withCache c (mapDelete (cache c) key))
      else
        let entry' := mkEntry (response entry) nowTouch (S (hitCount entry)) in
        (Some (response entry'), withCache c (mapSet (cache c) key entry'))
  end.

(** The loop of [evictLeastUsed]: [minHits = None] is [Infinity]. *)
Fixpoint leastUsedLoop (m : list (string * CacheEntry))
    (leastUsedKey : option string) (minHits : option nat) : option string :=
  match m with
  | [] => leastUsedKey
  | (key, entry) :: m' =>
      let below := match minHits with
                   | None => true
                   | Some h => Nat.ltb (hitCount entry) h
                   end in
      if below then leastUsedLoop m' (Some key) (Some (hitCount entry))
      else leastUsedLoop m' leastUsedKey minHits
  end.

Definition evictLeastUsed (c : CommitCache) : CommitCache :=
  match leastUsedLoop (cache c) None None with
  | Some leastUsedKey =>
      (* if (leastUsedKey): the empty string is not truthy *)
      if truthy leastUsedKey then withCache c (mapDelete (cache c) leastUsedKey) else c
  | None => c
  end.

(** [set(key, response)]; [now] is the value of [Date.now()]. *)
Definition set (now : Z) (key : string) (r : LLMResponse) (c : CommitCache) : CommitCache :=
  let c1 := if Nat.leb (maxSize c) (size c) then evictLeastUsed c else c in
  withCache c1 (mapSet (cache c1) key (mkEntry r now 1)).

End CommitCache.

(* ================================================================== *)
(** ** Commit analyzer (tools/git/commit-analyzer.ts) *)
(* ================================================================== *)

Module CommitAnalyzer.
Import JsString Errors Promises DiffParser LLMTypes PromptTemplates.

Definition TIMEOUT_MS : nat := 2000.
Definition MAX_RETRIES : nat := 2.
Definition BATCH_SIZE : nat := 3.

(** The object that [JSON.parse] makes of a reply.  A present field has the
    type the interface [LLMResponse] declares for it; [type] and
    [commitMessage] may be absent ([None]), and [breaking], which is not
    validated, is taken as present. *)
Record ReplyObject : Type := mkReply {
  reply_type : option string;
  reply_commitMessage : option string;
  reply_scope : option string;
  reply_breaking : bool;
  reply_details : option string
}.

(** The text the provider resolves with, up to [JSON.parse]. *)
Inductive AiReply : Type :=
| NotJson                       (* JSON.parse throws a SyntaxError *)
| NotObject                     (* null, a number, a string or a boolean *)
| Object (o : ReplyObject).

(** Where the orchestrator calls the model: for the file at index [i] of the
    parsed diffs, or for the final multi-change request. *)
Inductive CallSite : Type :=
| FileCall (i : nat)
| FinalCall.

(** The collaborators during one run of [analyzeCommit]:
    - [gitDiff n]: the promise of the call number [n] (from 0) of
      [git.diff(['--cached'])], which may take time, fail or stay pending;
    - [aiProvider site attempt]: the promise returned by the attempt-th
      call of [ai.generateCommitMessage] made for [site]; the prompt, built
      from the templates and [formatDiffForPrompt], reaches only the
      provider and is fixed by the site within a run;
    - the values of [Date.now()] in [get] (expiry test, refresh) and in [set]. *)
Record World : Type := mkWorld {
  gitDiff : nat -> Settle string;
  aiProvider : CallSite -> nat -> Settle AiReply;
  nowGetCheck : Z;
  nowGetTouch : Z;
  nowSet : Z
}.

Definition optTruthy (s : option string) : bool :=
  match s with Some x => truthy x | None => false end.

(** [validateLLMResponse] *)
Definition validateLLMResponse (reply : AiReply) : Result LLMResponse :=
  match reply with
  | NotJson | NotObject => Err (InvalidResponseError "Response must be an object")
  | Object o =>
      if negb (optTruthy (reply_type o)) || negb (optTruthy (reply_commitMessage o))
      then Err (InvalidResponseError "Missing required fields: type or commitMessage")
      else
        match reply_type o, reply_commitMessage o with
        | Some ty, Some msg =>
            match changeTypeOfName ty with
            | Some t => Ok (mkResponse msg t (reply_scope o) (reply_breaking o) (reply_details o))
            | None => Err (InvalidResponseError ("Invalid change type: " ++ ty))
            end
        | _, _ => Err (InvalidResponseError "Missing required fields: type or commitMessage")
        end
  end.

(** The [catch] block of [getLLMResponse]. *)
Definition classifyLLMError (error : JsError) : JsError :=
  if instanceOf error InvalidResponseErrorC then error
  else if instanceOf error SyntaxErrorC
  then InvalidResponseError "Invalid JSON response from LLM"
  else if includes (message error) "Timeout" then LLMTimeoutError TIMEOUT_MS
  else error.

(** [getLLMResponse(prompt)], the later of the two declarations in the
    file, which validates with [validateLLMResponse]. *)
Definition getLLMResponse (w : World) (site : CallSite) (attempt : nat)
  : Settle LLMResponse :=
  match aiProvider w site attempt with
  | Never => Never
  | At t (Ok NotJson) =>
      At t (Err (classifyLLMError (mkError SyntaxErrorC "Unexpected token")))
  | At t (Ok reply) =>
      match validateLLMResponse reply with
      | Ok parsed => At t (Ok parsed)
      | Err e => At t (Err (classifyLLMError e))
      end
  | At t (Err error) => At t (Err (classifyLLMError error))
  end.

(** [withTimeout(promise, ms)]: [Promise.race] of the promise and of a
    timer of [ms] milliseconds.  The promise is an argument of the call, so
    its work has been started before the timer is armed: when it settles in
    the very millisecond in which the timer expires, its settlement comes
    first and wins the race.  For the second attempt of [withRetries], which
    starts after the timer was armed, the order in that millisecond is the
    one of the runtime; the properties of the retry sequence are stated for
    settlements before and after it. *)
Definition withTimeout {A : Type} (promise : Settle A) (ms : nat) : Settle A :=
  let timeout := At ms (Err (mkError ErrorC ("Timeout after " ++ ofNat ms ++ "ms"))) in
  match promise with
  | Never => timeout
  | At t r => if Nat.leb t ms then At t r else timeout
  end.

(** [withRetries(fn, maxRetries, attempt)]; [fn attempt] is the promise of
    the call of [fn] made in that attempt.  [left] is
    [maxRetries - attempt]: it is zero exactly when [attempt >= maxRetries]. *)
Fixpoint withRetriesFrom {A : Type} (left : nat) (fn : nat -> Settle A) (attempt : nat)
  : Settle A :=
  match fn attempt with
  | Never => Never
  | At t (Ok a) => At t (Ok a)
  | At t (Err error) =>
      match left with
      | O => At t (Err error)
      | S left' =>
          delay (t + Nat.pow 2 attempt * 100) (withRetriesFrom left' fn (S attempt))
      end
  end.

Definition withRetries {A : Type} (fn : nat -> Settle A) (maxRetries attempt : nat)
  : Settle A :=
  withRetriesFrom (maxRetries - attempt) fn attempt.

(** [withTimeout(withRetries(() => getLLMResponse(prompt), MAX_RETRIES), TIMEOUT_MS)],
    the form of every model call of the orchestrator. *)
Definition callModel (w : World) (site : CallSite) : Settle LLMResponse :=
  withTimeout (withRetries (getLLMResponse w site) MAX_RETRIES 1) TIMEOUT_MS.

Record FileAnalysis : Type := mkFileAnalysis {
  fa_file : string;
  fa_type : ChangeType;
  fa_scope : option string;
  fa_description : string;
  fa_breaking : bool
}.

(** The rejection that settles first, the earlier promise on a tie. *)
Fixpoint firstRejection {A : Type} (ps : list (Settle A)) (best : option (nat * JsError))
  : option (nat * JsError) :=
  match ps with
  | [] => best
  | At t (Err e) :: ps' =>
      match best with
      | Some (tb, _) => if Nat.ltb t tb then firstRejection ps' (Some (t, e))
                        else firstRejection ps' best
      | None => firstRejection ps' (Some (t, e))
      end
  | _ :: ps' => firstRejection ps' best
  end.

Fixpoint allFulfilled {A : Type} (ps : list (Settle A)) : option (nat * list A) :=
  match ps with
  | [] => Some (0, [])
  | At t (Ok a) :: ps' =>
      match allFulfilled ps' with
      | Some (t', l) => Some (Nat.max t t', a :: l)
      | None => None
      end
  | _ :: ps' => None
  end.

(** [Promise.all(ps)] *)
Definition promiseAll {A : Type} (ps : list (Settle A)) : Settle (list A) :=
  match firstRejection ps None with
  | Some (t, e) => At t (Err e)
  | None =>
      match allFulfilled ps with
      | Some (t, l) => At t (Ok l)
      | None => Never
      end
  end.

(** [new Set(xs)] spread into an array: first occurrences, in order. *)
Fixpoint dedup (seen xs : list string) : list string :=
  match xs with
  | [] => []
  | x :: xs' =>
      if existsb (String.eqb x) seen then dedup seen xs'
      else x :: dedup (x :: seen) xs'
  end.

Fixpoint definedScopes (l : list FileAnalysis) : list string :=
  match l with
  | [] => []
  | a :: l' =>
      match fa_scope a with
      | Some s => s :: definedScopes l'
      | None => definedScopes l'
      end
  end.

(** The grouping loop of [consolidateAnalysis]: the first category of each
    key [`${type}:${scope || ''}`], in order of first occurrence. *)
Fixpoint groupChanges (seen : list string) (l : list FileAnalysis) : list ChangeCategory :=
  match l with
  | [] => []
  | a :: l' =>
      let scopeOrEmpty := match fa_scope a with
                          | Some s => s
                          | None => EmptyString
                          end in
      let key := changeTypeName (fa_type a) ++ ":" ++ scopeOrEmpty in
      if existsb (String.eqb key) seen then groupChanges seen l'
      else mkCategory (fa_type a) (fa_scope a) (fa_description a)
             :: groupChanges (key :: seen) l'
  end.

Definition consolidateAnalysis (fileAnalyses : list FileAnalysis) : CommitAnalysis :=
  mkAnalysis (map fa_file fileAnalyses)
             EmptyString
             (dedup [] (definedScopes fileAnalyses))
             (groupChanges [] fileAnalyses)
             (existsb fa_breaking fileAnalyses).

(** [diffs.slice(i, i + n)] with the index of each element. *)
Definition sliceIndexed (diffs : list ParsedDiff) (i n : nat) : list (nat * ParsedDiff) :=
  combine (seq i n) (firstn n (skipn i diffs)).

(** One element of [batchPromises]. *)
Definition analyzeFile (w : World) (item : nat * ParsedDiff) : Settle FileAnalysis :=
  andThen (callModel w (FileCall (fst item)))
    (fun response =>
       At 0 (Ok (mkFileAnalysis (filePath (snd item)) (type response) (scope response)
                   (commitMessage response) (breaking response)))).

(** The [for] loop of [processDiffsConcurrently]; it runs at most
    [length diffs] times, which [fuel] counts. *)
Fixpoint processLoop (fuel : nat) (w : World) (diffs : list ParsedDiff) (i : nat)
    (results : list FileAnalysis) : Settle (list FileAnalysis) :=
  if Nat.ltb i (List.length diffs) then
    match fuel with
    | O => At 0 (Ok results)
    | S fuel' =>
        let batch := sliceIndexed diffs i BATCH_SIZE in
        andThen (promiseAll (map (analyzeFile w) batch))
          (fun batchResults =>
             let results' := (results ++ batchResults)%list in
             let pause := if Nat.ltb (i + BATCH_SIZE) (List.length diffs) then 100 else 0 in
             delay pause (processLoop fuel' w diffs (i + BATCH_SIZE) results'))
    end
  else At 0 (Ok results).

Definition processDiffsConcurrently (w : World) (diffs : list ParsedDiff)
  : Settle CommitAnalysis :=
  andThen (processLoop (List.length diffs) w diffs 0 [])
    (fun results => At 0 (Ok (consolidateAnalysis results))).

Record Outcome : Type := mkOutcome {
  out_message : string;
  analysis : CommitAnalysis
}.

(** [response.scope ? [response.scope].filter(Boolean) : []] *)
Definition scopeAreas (scope : option string) : list string :=
  match scope with
  | Some s => if truthy s then [s] else []
  | None => []
  end.

Definition orEmpty (s : option string) : string :=
  match s with Some x => x | None => EmptyString end.

Definition createAnalysisFromLLMResponse (response : LLMResponse) (files : list string)
  : CommitAnalysis :=
  mkAnalysis files
             (orEmpty (details response))
             (scopeAreas (scope response))
             [mkCategory (type response) (scope response) (commitMessage response)]
             (breaking response).

(** Modelled from the spec: the head of [createEmptyAnalysis] is missing
    from the source, which keeps only its last two fields
    ([changeTypes: []], [breakingChanges: false]) and its two call sites,
    [createEmptyAnalysis()] and [createEmptyAnalysis(files)].  The empty
    analysis has the given file list, empty when none is given, an empty
    summary and no impacted areas. *)
Definition createEmptyAnalysis (files : option (list string)) : CommitAnalysis :=
  mkAnalysis (match files with Some fs => fs | None => [] end)
             EmptyString [] [] false.

Definition generateCommitMessage (w : World) (diffs : list ParsedDiff) : Settle Outcome :=
  andThen (processDiffsConcurrently w diffs)
    (fun fileAnalysis =>
       andThen (callModel w FinalCall)
         (fun llmResponse =>
            At 0 (Ok (mkOutcome (commitMessage llmResponse)
                        (createAnalysisFromLLMResponse llmResponse
                           (map filePath diffs)))))).

(** The second argument of [generateCacheKey] in the analyzer. *)
Definition diffText (diffs : list ParsedDiff) : string :=
  join nl (map (fun d => join nl (additions d) ++ nl ++ join nl (deletions d)) diffs).

Definition cacheKeyOf (diffs : list ParsedDiff) : string :=
  fst (generateCacheKey (map filePath diffs) (diffText diffs)).

Definition checkCommitCache (w : World) (diffs : list ParsedDiff)
    (c : CommitCache.CommitCache) : option Outcome * CommitCache.CommitCache :=
  let cacheKey := cacheKeyOf diffs in
  match CommitCache.get (nowGetCheck w) (nowGetTouch w) cacheKey c with
  | (None, c') => (None, c')
  | (Some cached, c') =>
      (Some (mkOutcome (commitMessage cached)
               (mkAnalysis (map filePath diffs)
                  (orEmpty (details cached))
                  (scopeAreas (scope cached))
                  [mkCategory (type cached) (scope cached) (commitMessage cached)]
                  (breaking cached))),
       c')
  end.

Section WithCollaborators.

Variable minimatch : string -> string -> bool.

(** [inferChangeType(files)] is called by the analyzer; its declaration
    is missing from the source. *)
Variable inferChangeType : list string -> ChangeType.

(** The [catch] block of [analyzeCommit]. *)
Definition recover (w : World) (error : JsError) : Settle Outcome :=
  if instanceOf error NoChangesErrorC then
    At 0 (Ok (mkOutcome (message error) (createEmptyAnalysis None)))
  else if instanceOf error LLMTimeoutErrorC || instanceOf error InvalidResponseErrorC then
    andThen (getStagedDiff minimatch (gitDiff w 1))
      (fun ds =>
         let files := map filePath ds in
         let type := inferChangeType files in
         let '(msg, files1) := FALLBACK_COMMIT_TEMPLATE files (Some type) in
         At 0 (Ok (mkOutcome msg (createEmptyAnalysis (Some files1)))))
  else if instanceOf error GitErrorC then At 0 (Err error)
  else At 0 (Err error).

Definition analyzeCommit (w : World) (c : CommitCache.CommitCache)
  : Settle Outcome * CommitCache.CommitCache :=
  match getStagedDiff minimatch (gitDiff w 0) with
  | Never => (Never, c)
  | At t0 (Err error) => (delay t0 (recover w error), c)
  | At t0 (Ok diffs) =>
      if Nat.eqb (List.length diffs) 0 then (delay t0 (recover w NoChangesError), c)
      else
        match checkCommitCache w diffs c with
        | (Some cached, c1) => (At t0 (Ok cached), c1)
        | (None, c1) =>
            match generateCommitMessage w diffs with
            | Never => (Never, c1)
            | At t (Err error) => (delay (t0 + t) (recover w error), c1)
            | At t (Ok result) =>
                let cacheKey := cacheKeyOf diffs in
                let changeType := nth_error (changeTypes (analysis result)) 0 in
                let cached :=
                  mkResponse (out_message result)
                    (match changeType with Some ct => cat_type ct | None => chore end)
                    (match changeType with Some ct => cat_scope ct | None => None end)
                    (breakingChanges (analysis result))
                    (Some (summary (analysis result))) in
                (At (t0 + t) (Ok result), CommitCache.set (nowSet w) cacheKey cached c1)
            end
        end
  end.

End WithCollaborators.

End CommitAnalyzer.


(* ================================================================== *)
(** ** Notions used to state the properties of the parser *)
(* ================================================================== *)

Module ParserNotions.
Import JsString Regex Errors DiffParser.

(** The change type as the invariant of the data model words it, from the
    numbers of added and deleted lines. *)
Definition changeTypeOfLengths (nAdditions nDeletions : nat) : ChangeKind :=
  match nAdditions, nDeletions with
  | S _, O => added
  | O, S _ => deleted
  | _, _ => modified
  end.

(** A chunk of the text is a file block when it is not blank and its first
    line carries the path marker. *)
Definition isFileBlock (chunk : string) : bool :=
  truthy (trim chunk) && truthy (extractPath chunk).

Definition fileBlocks (diff : string) : list string :=
  filter isFileBlock (split diff "diff --git").

Definition nl : string := String LF EmptyString.

(** The staged diff of the analyzer tests: one changed and one new file. *)
Definition twoFileDiff : string :=
  "diff --git a/src/api.ts b/src/api.ts" ++ nl ++
  "-function oldApi() {}" ++ nl ++
  "+function newApi() {}" ++ nl ++
  "diff --git a/README.md b/README.md" ++ nl ++
  "+Updated API documentation".

Definition oneFileDiff : string :=
  "diff --git a/src/file.ts b/src/file.ts" ++ nl ++ "+console.log('test');".

Definition readmeRecord : ParsedDiff :=
  mkParsedDiff "README.md" ["Updated API documentation"] [] added.

Definition fileTsRecord : ParsedDiff :=
  mkParsedDiff "src/file.ts" ["console.log('test');"] [] added.

(** [2^k] spaces. *)
Fixpoint spaces (k : nat) : string :=
  match k with
  | O => " "
  | S k' => spaces k' ++ spaces k'
  end.

(** A text of more than two million characters: [2^21] spaces, then the
    diff of one new file. *)
Definition hugeDiff : string := spaces 21 ++ oneFileDiff.

Definition lengthN (s : string) : N := N.of_nat (String.length s).

Fixpoint allSpace (s : string) : bool :=
  match s with
  | EmptyString => true
  | String c s' => isSpace c && allSpace s'
  end.

End ParserNotions.

(* ================================================================== *)
(** ** States of the cache that the public methods can produce *)
(* ================================================================== *)

Module CacheStates.
Import JsString LLMTypes CommitCache.

Inductive reachable : CommitCache -> Prop :=
| reach_new : forall maxSize ttlHours, reachable (newCommitCache maxSize ttlHours)
| reach_get : forall c nowCheck nowTouch key,
    reachable c -> reachable (snd (get nowCheck nowTouch key c))
| reach_set : forall c now key r,
    reachable c -> reachable (set now key r c).

(** [key] is the entry that the scan of [evictLeastUsed] selects in [m]: its
    hit count is below that of every earlier entry and not above that of any
    later one. *)
Definition firstLeastUsed (m : list (string * CacheEntry)) (key : string) (e : CacheEntry)
    (pre post : list (string * CacheEntry)) : Prop :=
  m = (pre ++ (key, e) :: post)%list /\
  (forall p, In p pre -> hitCount e < hitCount (snd p)) /\
  (forall p, In p post -> hitCount e <= hitCount (snd p)).

Definition keys (m : list (string * CacheEntry)) : list string := map fst m.

(** Every entry has been counted at least once. *)
Definition hitsPositive (c : CommitCache) : Prop :=
  Forall (fun p => 1 <= hitCount (snd p)) (cache c).

Definition r0 : LLMResponse := mkResponse "chore: update" chore None false None.

Definition emptyCache : CommitCache := newCommitCache None None.

(** One entry, written at time 0 and read once at time 5 (refresh at 6). *)
Definition readOnce : CommitCache := snd (get 5 6 "key" (set 0 "key" r0 emptyCache)).

(** A cache of the default size filled to capacity: the entry under the
    empty key is never read, the 99 others are read once each. *)
Definition fullKeys : list string :=
  map (fun i => match i with O => EmptyString | _ => "k" ++ ofNat i end) (seq 0 100).

Definition filled : CommitCache :=
  fold_left (fun c k => set 0 k r0 c) fullKeys (newCommitCache None None).

Definition filledAndRead : CommitCache :=
  fold_left (fun c k => snd (get 1 1 k c)) (tl fullKeys) filled.

(** The same with the never-read entry under the key k0. *)
Definition fullKeys' : list string := map (fun i => "k" ++ ofNat i) (seq 0 100).

Definition filled' : CommitCache :=
  fold_left (fun c k => set 0 k r0 c) fullKeys' (newCommitCache None None).

Definition filledAndRead' : CommitCache :=
  fold_left (fun c k => snd (get 1 1 k c)) (tl fullKeys') filled'.

End CacheStates.

(* ================================================================== *)
(** ** The timeout as the specification words it, and sample runs *)
(* ================================================================== *)

Module Scenarios.
Import JsString Errors Promises DiffParser LLMTypes PromptTemplates CommitAnalyzer ParserNotions.

(** The reading of the specification in which every attempt races its own
    timer and a lost race is an [LLMTimeoutError]: the timer is inside the
    retry loop. *)
Definition attemptWithTimer (w : World) (site : CallSite) (attempt : nat)
  : Settle LLMResponse :=
  match getLLMResponse w site attempt with
  | Never => At TIMEOUT_MS (Err (LLMTimeoutError TIMEOUT_MS))
  | At t r => if Nat.leb t TIMEOUT_MS then At t r
              else At TIMEOUT_MS (Err (LLMTimeoutError TIMEOUT_MS))
  end.

Definition callModelPerAttempt (w : World) (site : CallSite) : Settle LLMResponse :=
  withRetries (attemptWithTimer w site) MAX_RETRIES 1.

(** The call has failed by the expiry of its timer. *)
Definition timedOut {A : Type} (p : Settle A) : Prop :=
  exists e, p = At TIMEOUT_MS (Err e).

Definition inferChore (files : list string) : ChangeType := chore.

Definition featReply : AiReply :=
  Object (mkReply (Some "feat") (Some "feat(x): add y") (Some "x") false None).

(** The provider never answers. *)
Definition silentWorld : World :=
  mkWorld (fun _ => At 0 (Ok oneFileDiff)) (fun _ _ => Never) 0 0 0.

(** The provider answers every call after 10 ms with text that is not JSON. *)
Definition malformedWorld : World :=
  mkWorld (fun _ => At 0 (Ok oneFileDiff)) (fun _ _ => At 10 (Ok NotJson)) 0 0 0.

(** The first answer comes after 1500 ms and is not JSON, the second after
    1000 ms and is valid. *)
Definition slowRetryWorld : World :=
  mkWorld (fun _ => At 0 (Ok oneFileDiff))
          (fun _ attempt => match attempt with
                            | 1 => At 1500 (Ok NotJson)
                            | _ => At 1000 (Ok featReply)
                            end)
          0 0 0.



(** Nothing is staged. *)
Definition nothingStagedWorld : World :=
  mkWorld (fun _ => At 0 (Ok EmptyString)) (fun _ _ => Never) 0 0 0.

Definition noChangesOutcome : Outcome :=
  mkOutcome "No changes staged for commit" (mkAnalysis [] EmptyString [] [] false).

Definition timerError : JsError := mkError ErrorC "Timeout after 2000ms".





End Scenarios.

(* ================================================================== *)
(** ** Tools built on the analyzer (tools.ts) *)
(* ================================================================== *)

Module Tools.
Import JsString Errors Promises DiffParser LLMTypes CommitAnalyzer.

Definition excludeFiles : list string := ["dist"; "bun.lock"].

(** [excludeFiles.includes(file)] *)
Definition isExcludedFile (file : string) : bool :=
  existsb (String.eqb file) excludeFiles.

Record FileDiff : Type := mkFileDiff { fd_file : string; fd_diff : string }.

(** The loop of [getFileChangesInDirectory]; [gitFileDiff file] is the
    outcome of [git.diff(['--', file])]. *)
Fixpoint collectFileChanges (gitFileDiff : string -> Result string)
    (summaryFiles : list string) (diffs : list FileDiff) : Result (list FileDiff) :=
  match summaryFiles with
  | [] => Ok diffs
  | file :: rest =>
      if isExcludedFile file then collectFileChanges gitFileDiff rest diffs
      else
        match gitFileDiff file with
        | Err e => Err e
        | Ok diff =>
            collectFileChanges gitFileDiff rest (diffs ++ [mkFileDiff file diff])%list
        end
  end.

(** [getFileChangesInDirectory]; [diffSummary] is the outcome of
    [git.diffSummary()], reduced to the names of its files. *)
Definition getFileChangesInDirectory (diffSummary : Result (list string))
    (gitFileDiff : string -> Result string) : Result (list FileDiff) :=
  match diffSummary with
  | Err e => Err e
  | Ok summaryFiles => collectFileChanges gitFileDiff summaryFiles []
  end.

(** [generateCommitMessage] of tools.ts, on the promise of [analyzeCommit]. *)
Definition generateCommitMessage (analyzed : Settle Outcome) : Settle string :=
  match analyzed with
  | Never => Never
  | At t (Ok o) => At t (Ok (out_message o))
  | At t (Err error) =>
      At t (Err (mkError ErrorC ("Failed to generate commit message: " ++ message error)))
  end.

(** The file system as [writeReviewToMarkdown] sees it: the writes done so
    far, the latest first. *)
Definition FileSystem : Type := list (string * string).

(** The check mark U+2705 that begins the success message, in UTF-8. *)
Definition checkMark : string :=
  String (ascii_of_nat 226) (String (ascii_of_nat 156) (String (ascii_of_nat 133) EmptyString)).

(** [writeReviewToMarkdown]; [writeFile path content] is the outcome of the
    call of [fs/promises.writeFile], which is made only for an accepted path. *)
Definition writeReviewToMarkdown (writeFile : string -> string -> Result unit)
    (filePath reviewContent : string) (fs : FileSystem) : Result string * FileSystem :=
  let wrap (error : JsError) :=
    mkError ErrorC ("Failed to write review file: " ++ message error) in
  if includes filePath ".." then
    (Err (wrap (mkError ErrorC "Invalid file path: directory traversal not allowed")), fs)
  else
    match writeFile filePath reviewContent with
    | Ok _ => (Ok (checkMark ++ " Review written to " ++ filePath),
               (filePath, reviewContent) :: fs)
    | Err error => (Err (wrap error), fs)
    end.

End Tools.

(* ================================================================== *)
(** ** Further notions used to state properties *)
(* ================================================================== *)

Module MoreNotions.
Import JsString Regex Errors Promises DiffParser LLMTypes PromptTemplates CommitCache CommitAnalyzer.

(** Cache states produced by the constructor, [get] and [set] when every
    key written is a non-empty string. *)
Inductive reachableNonEmpty : CommitCache -> Prop :=
| rne_new : forall maxSize ttlHours, reachableNonEmpty (newCommitCache maxSize ttlHours)
| rne_get : forall c nowCheck nowTouch key,
    reachableNonEmpty c -> reachableNonEmpty (snd (get nowCheck nowTouch key c))
| rne_set : forall c now key r,
    truthy key = true -> reachableNonEmpty c -> reachableNonEmpty (set now key r c).

Definition firstChar (s : string) : option ascii :=
  match s with
  | EmptyString => None
  | String c _ => Some c
  end.

Fixpoint lastChar (s : string) : option ascii :=
  match s with
  | EmptyString => None
  | String c s' => match lastChar s' with
                   | None => Some c
                   | Some d => Some d
                   end
  end.

(** A line of a chunk that [parseChunk] takes for an added line. *)
Definition isAdditionLine (line : string) : bool :=
  startsWith line "+" && negb (startsWith line "+++").

(** A line that [parseChunk] takes for a deleted line. *)
Definition isDeletionLine (line : string) : bool :=
  startsWith line "-" && negb (startsWith line "---").

(** What [parseChunk] stores for a line: the line without its first
    character, sanitized. *)
Definition storedLine (line : string) : string := sanitizeLine (slice1 line).

(** The limit on the lines of a file in effect for a call with [options]:
    the default of 50 when the option is left out, the number given, and no
    limit when the option is given as [undefined]. *)
Definition effectiveCap (options : DiffParseOptions) : option nat :=
  match maxLinesPerFile options with
  | Absent => Some 50
  | Present (Some n) => Some n
  | Present None => None
  end.

(** The exclude patterns in effect: the three defaults when the option is
    left out, the list given, and none when the option is given as
    [undefined]. *)
Definition effectivePatterns (options : DiffParseOptions) : list string :=
  match excludePatterns options with
  | Absent => ["package-lock.json"; "yarn.lock"; "*.log"]
  | Present (Some patterns) => patterns
  | Present None => []
  end.



(** [k] lines [+x], one below the other. *)
Fixpoint addedLines (k : nat) : string :=
  match k with
  | O => EmptyString
  | S k' => String LF ("+x" ++ addedLines k')
  end.

(** A file with sixty added lines. *)
Definition sixtyLineDiff : string := "diff --git a/big.ts b/big.ts" ++ addedLines 60.

(** The options [{ maxLinesPerFile: undefined }]. *)
Definition undefinedCap : DiffParseOptions := mkOptions (Present None) Absent Absent.

Definition edgeIsSpace (edge : option ascii) : bool :=
  match edge with
  | Some c => isSpace c
  | None => false
  end.

(** The first [n] elements, all of them for [None]. *)
Definition capped {A : Type} (cap : option nat) (l : list A) : list A :=
  match cap with
  | Some n => firstn n l
  | None => l
  end.

(** The key under which [consolidateAnalysis] groups a change. *)
Definition groupKey (t : ChangeType) (scope : option string) : string :=
  changeTypeName t ++ ":" ++ match scope with Some s => s | None => EmptyString end.

Definition categoryKey (c : ChangeCategory) : string := groupKey (cat_type c) (cat_scope c).

Definition analysisKey (a : FileAnalysis) : string := groupKey (fa_type a) (fa_scope a).

Section StarLoop.

Variable R : Type.
Variable m : string -> captures -> (string -> captures -> option R) -> option R.
Variable k : string -> captures -> option R.

(** The loop of the greedy star of [rmatch], for the matcher [m] of the
    starred expression and the continuation [k]. *)
Fixpoint starLoop (fuel : nat) (s : string) (c : captures) {struct fuel} : option R :=
  match fuel with
  | O => k s c
  | S f =>
      match m s c (fun s' c' =>
                     if Nat.ltb (String.length s') (String.length s)
                     then starLoop f s' c' else None) with
      | Some x => Some x
      | None => k s c
      end
  end.

End StarLoop.

(** The order of the sort as a relation. *)
Definition lebP (s t : string) : Prop := JsString.leb s t = true.

(** A token of forty characters, as an access key would be. *)
Definition sampleToken : string := "abcdefghijklmnopqrstuvwxyz0123456789ABCD".

Fixpoint allChars (p : ascii -> bool) (s : string) : bool :=
  match s with
  | EmptyString => true
  | String c s' => p c && allChars p s'
  end.

(** A provider that answers every call after 10 ms with a valid reply. *)
Definition promptWorld : World :=
  mkWorld (fun _ => At 0 (Ok ParserNotions.oneFileDiff))
          (fun _ _ => At 10 (Ok Scenarios.featReply)) 5 6 7.

(** The same staged diff a little later, with a provider that never answers. *)
Definition laterSilentWorld : World :=
  mkWorld (fun _ => At 0 (Ok ParserNotions.oneFileDiff)) (fun _ _ => Never) 100 101 102.

(** The provider answers every call after exactly 2000 ms with a valid
    reply. *)
Definition deadlineWorld : World :=
  mkWorld (fun _ => At 0 (Ok ParserNotions.oneFileDiff))
          (fun _ _ => At 2000 (Ok Scenarios.featReply)) 0 0 0.

(** The first reading of the staged diff succeeds and the second stays
    pending; every reply of the provider is malformed. *)
Definition stuckFallbackWorld : World :=
  mkWorld (fun n => match n with
                    | O => At 0 (Ok ParserNotions.oneFileDiff)
                    | S _ => Never
                    end)
          (fun _ _ => At 10 (Ok NotJson)) 0 0 0.

(** The provider fails every call after 5 ms. *)
Definition failing (e : JsError) : nat -> Settle LLMResponse := fun _ => At 5 (Err e).

(** The same, but the third call would succeed. *)
Definition failingTwice (e : JsError) (r : LLMResponse) : nat -> Settle LLMResponse :=
  fun attempt => match attempt with
                 | 3 => At 5 (Ok r)
                 | _ => At 5 (Err e)
                 end.

Definition categoryOf (a : FileAnalysis) : ChangeCategory :=
  mkCategory (fa_type a) (fa_scope a) (fa_description a).

(** Two analyses of the same type and scope and one of another type. *)
Definition sampleAnalyses : list FileAnalysis :=
  [ mkFileAnalysis "a.ts" feat (Some "api") "feat(api): first" false;
    mkFileAnalysis "b.ts" feat (Some "api") "feat(api): second" true;
    mkFileAnalysis "c.md" docs None "docs: third" false ].

(** The summary of three changed files and the diff of each. *)
Definition sampleSummary : list string := ["src/a.ts"; "dist"; "bun.lock"].

Definition sampleFileDiff (file : string) : Result string := Ok ("diff of " ++ file).

Definition featOutcome : Outcome :=
  mkOutcome "feat(x): add y"
    (mkAnalysis ["src/file.ts"] EmptyString ["x"]
       [mkCategory feat (Some "x") "feat(x): add y"] false).

End MoreNotions.

(* ================================================================== *)
(** * Properties *)
(* ================================================================== *)

Unset Implicit Arguments.

(* ------------------------------------------------------------------ *)
(** ** Commit cache *)
(* ------------------------------------------------------------------ *)

Section CacheFacts.
Import JsString LLMTypes CommitCache CacheStates.

Lemma mapGet_mapSet_same : forall m key e, mapGet (mapSet m key e) key = Some e.
Proof.
  induction m as [|[k e'] m IH]; intros key e; simpl.
  - now rewrite String.eqb_refl.
  - destruct (String.eqb k key) eqn:E; simpl; rewrite E; auto.
Qed.

Lemma mapGet_mapSet_other : forall m key key' e,
  key <> key' -> mapGet (mapSet m key e) key' = mapGet m key'.
Proof.
  induction m as [|[k e'] m IH]; intros key key' e Hne; simpl.
  - destruct (String.eqb key key') eqn:E; auto.
    apply String.eqb_eq in E; contradiction.
  - destruct (String.eqb k key) eqn:E; simpl.
    + apply String.eqb_eq in E; subst k.
      destruct (String.eqb key key') eqn:E'; auto.
      apply String.eqb_eq in E'; contradiction.
    + destruct (String.eqb k key'); auto.
Qed.

Lemma mapGet_In : forall m key e, mapGet m key = Some e -> In (key, e) m.
Proof.
  induction m as [|[k e'] m IH]; intros key e; simpl; [discriminate|].
  destruct (String.eqb k key) eqn:E.
  - intros [= <-]. apply String.eqb_eq in E; subst; auto.
  - auto.
Qed.

Lemma mapSet_Forall : forall (P : string * CacheEntry -> Prop) m key e,
  Forall P m -> P (key, e) -> (forall k e', P (k, e') -> P (k, e)) ->
  Forall P (mapSet m key e).
Proof.
  induction m as [|[k e'] m IH]; intros key e Hm He Hk; simpl.
  - auto.
  - inversion Hm; subst.
    destruct (String.eqb k key); constructor; eauto.
Qed.

Lemma mapDelete_Forall : forall (P : string * CacheEntry -> Prop) m key,
  Forall P m -> Forall P (mapDelete m key).
Proof.
  induction m as [|[k e'] m IH]; intros key Hm; simpl; auto.
  inversion Hm; subst.
  destruct (String.eqb k key); auto.
Qed.

Lemma evictLeastUsed_hitsPositive : forall c,
  hitsPositive c -> hitsPositive (evictLeastUsed c).
Proof.
  intros c H. unfold evictLeastUsed.
  destruct (leastUsedLoop (cache c) None None) as [k|]; auto.
  destruct (truthy k); auto.
  unfold hitsPositive; simpl. now apply mapDelete_Forall.
Qed.

Lemma set_hitsPositive : forall now key r c,
  hitsPositive c -> hitsPositive (set now key r c).
Proof.
  intros now key r c H. unfold set, hitsPositive; simpl.
  apply mapSet_Forall; simpl; auto.
  destruct (Nat.leb (maxSize c) (size c)); auto.
  now apply evictLeastUsed_hitsPositive.
Qed.

Lemma get_hitsPositive : forall n1 n2 key c,
  hitsPositive c -> hitsPositive (snd (get n1 n2 key c)).
Proof.
  intros n1 n2 key c H. unfold get.
  destruct (mapGet (cache c) key) as [e|]; auto.
  destruct (ttlMs c <? n1 - timestamp e)%Z; simpl.
  - now apply mapDelete_Forall.
  - apply mapSet_Forall; simpl; auto; intros; lia.
Qed.

Lemma reachable_hitsPositive : forall c, reachable c -> hitsPositive c.
Proof.
  induction 1.
  - constructor.
  - now apply get_hitsPositive.
  - now apply set_hitsPositive.
Qed.

Lemma evictLeastUsed_ttlMs : forall c, ttlMs (evictLeastUsed c) = ttlMs c.
Proof.
  intros c. unfold evictLeastUsed.
  destruct (leastUsedLoop (cache c) None None) as [k|]; auto.
  destruct (truthy k); auto.
Qed.

Lemma set_ttlMs : forall now key r c, ttlMs (set now key r c) = ttlMs c.
Proof.
  intros. unfold set; simpl.
  destruct (Nat.leb (maxSize c) (size c)); auto using evictLeastUsed_ttlMs.
Qed.

Lemma set_lookup : forall now key r c,
  mapGet (cache (set now key r c)) key = Some (mkEntry r now 1).
Proof.
  intros. unfold set; simpl. apply mapGet_mapSet_same.
Qed.

(** C7.  [set(k, r)] followed at once by [get(k)], when the age of the
    entry at the read does not exceed the time to live, returns [r]; the
    entry has hit count 1 after the insertion and 2 after the read, and its
    timestamp is then the time of the read. *)
Theorem cache_set_then_get :
  forall (now nowCheck nowTouch : Z) (k : string) (r : LLMResponse) (c : CommitCache),
    (nowCheck - now <= ttlMs c)%Z ->
    let c1 := set now k r c in
    let c2 := snd (get nowCheck nowTouch k c1) in
    mapGet (cache c1) k = Some (mkEntry r now 1) /\
    fst (get nowCheck nowTouch k c1) = Some r /\
    mapGet (cache c2) k = Some (mkEntry r nowTouch 2).
Proof.
  intros now nowCheck nowTouch k r c Httl c1 c2.
  assert (H1 : mapGet (cache c1) k = Some (mkEntry r now 1)) by apply set_lookup.
  split; [exact H1|].
  assert (E : (ttlMs c1 <? nowCheck - now)%Z = false).
  { unfold c1. rewrite set_ttlMs. apply Z.ltb_ge; lia. }
  subst c2. unfold get. rewrite H1. cbn [timestamp]. rewrite E.
  cbn [fst snd response hitCount cache withCache].
  split; [reflexivity|].
  apply mapGet_mapSet_same.
Qed.

Lemma cache_set_then_get_witness :
  (1500 - 1000 <= ttlMs emptyCache)%Z /\
  fst (get 1500 1501 "key" (set 1000 "key" r0 emptyCache)) = Some r0 /\
  mapGet (cache (snd (get 1500 1501 "key" (set 1000 "key" r0 emptyCache)))) "key"
  = Some (mkEntry r0 1501 2).
Proof.
  assert (H : (1500 - 1000 <= ttlMs emptyCache)%Z) by (vm_compute; discriminate).
  split; [exact H|].
  exact (proj2 (cache_set_then_get 1000 1500 1501 "key" r0 emptyCache H)).
Defined.

(** C10.  Writing a key that is already present replaces its entry: the new
    entry has hit count 1 and the time of the write as timestamp, whatever
    count the reads had accumulated; no entry of the cache has a smaller
    hit count, so the rewritten entry is again among the least used. *)
Theorem cache_set_overwrites :
  forall (c : CommitCache) (now : Z) (k : string) (r' : LLMResponse) (e : CacheEntry),
    reachable c ->
    mapGet (cache c) k = Some e ->
    let c' := set now k r' c in
    mapGet (cache c') k = Some (mkEntry r' now 1) /\
    (forall k' e', mapGet (cache c') k' = Some e' -> 1 <= hitCount e').
Proof.
  intros c now k r' e Hr _ c'. split.
  - apply set_lookup.
  - intros k' e' H.
    assert (Hp : hitsPositive c') by (apply set_hitsPositive, reachable_hitsPositive, Hr).
    apply mapGet_In in H.
    unfold hitsPositive in Hp. rewrite Forall_forall in Hp.
    exact (Hp _ H).
Qed.

Lemma cache_set_overwrites_witness :
  reachable readOnce /\
  mapGet (cache readOnce) "key" = Some (mkEntry r0 6 2) /\
  mapGet (cache (set 9 "key" r0 readOnce)) "key" = Some (mkEntry r0 9 1).
Proof.
  assert (Hr : reachable readOnce) by (apply reach_get, reach_set, reach_new).
  assert (Hg : mapGet (cache readOnce) "key" = Some (mkEntry r0 6 2)) by reflexivity.
  split; [exact Hr|]. split; [exact Hg|].
  exact (proj1 (cache_set_overwrites readOnce 9 "key" r0 (mkEntry r0 6 2) Hr Hg)).
Defined.

(** *** The entry that [evictLeastUsed] selects *)

Lemma leastUsedLoop_acc : forall m k0 h0,
  (leastUsedLoop m (Some k0) (Some h0) = Some k0 /\
   forall p, In p m -> h0 <= hitCount (snd p)) \/
  (exists key e pre post,
     firstLeastUsed m key e pre post /\
     leastUsedLoop m (Some k0) (Some h0) = Some key /\
     hitCount e < h0).
Proof.
  induction m as [|[k e] m IH]; intros k0 h0.
  - left. split; [reflexivity|]. intros p [].
  - cbn [leastUsedLoop].
    destruct (Nat.ltb (hitCount e) h0) eqn:E.
    + apply Nat.ltb_lt in E. right.
      destruct (IH k (hitCount e)) as [[Hk Hall] | (key & e' & pre & post & (Hm & Hpre & Hpost) & Hk & Hlt)].
      * exists k, e, [], m. repeat split; auto.
        intros p [].
      * exists key, e', ((k, e) :: pre), post. repeat split; auto.
        -- simpl. now rewrite Hm.
        -- intros p [<- | Hin]; simpl; auto.
        -- lia.
    + apply Nat.ltb_ge in E.
      destruct (IH k0 h0) as [[Hk Hall] | (key & e' & pre & post & (Hm & Hpre & Hpost) & Hk & Hlt)].
      * left. split; auto. intros p [<- | Hin]; simpl; auto.
      * right. exists key, e', ((k, e) :: pre), post. repeat split; auto.
        -- simpl. now rewrite Hm.
        -- intros p [<- | Hin]; simpl; auto. lia.
Qed.

Lemma leastUsedLoop_first : forall p m,
  exists key e pre post,
    firstLeastUsed (p :: m) key e pre post /\
    leastUsedLoop (p :: m) None None = Some key.
Proof.
  intros [k e] m. cbn [leastUsedLoop].
  destruct (leastUsedLoop_acc m k (hitCount e))
    as [[Hk Hall] | (key & e' & pre & post & (Hm & Hpre & Hpost) & Hk & Hlt)].
  - exists k, e, [], m. repeat split; auto. intros p [].
  - exists key, e', ((k, e) :: pre), post. repeat split; auto.
    + simpl. now rewrite Hm.
    + intros p [<- | Hin]; simpl; auto.
Qed.

Lemma mapDelete_middle : forall pre key e post,
  ~ In key (keys pre) -> mapDelete (pre ++ (key, e) :: post) key = (pre ++ post)%list.
Proof.
  induction pre as [|[k e'] pre IH]; intros key e post Hn; simpl.
  - now rewrite String.eqb_refl.
  - destruct (String.eqb k key) eqn:E.
    + apply String.eqb_eq in E. subst. exfalso. apply Hn. simpl; auto.
    + f_equal. apply IH. intro H. apply Hn. simpl; auto.
Qed.

Lemma keys_mapSet : forall m key e,
  keys (mapSet m key e) = keys m \/
  (~ In key (keys m) /\ keys (mapSet m key e) = (keys m ++ [key])%list).
Proof.
  induction m as [|[k e'] m IH]; intros key e; simpl.
  - right. split; auto.
  - destruct (String.eqb k key) eqn:E; simpl.
    + now left.
    + destruct (IH key e) as [H | [Hn H]].
      * left. now rewrite H.
      * right. split.
        -- intros [-> | Hin]; [|now apply Hn].
           now rewrite String.eqb_refl in E.
        -- now rewrite H.
Qed.

Lemma keys_mapDelete_incl : forall m key k, In k (keys (mapDelete m key)) -> In k (keys m).
Proof.
  induction m as [|[k' e] m IH]; intros key k; simpl; auto.
  destruct (String.eqb k' key); simpl; intuition eauto.
Qed.

Lemma mapDelete_NoDup : forall m key, NoDup (keys m) -> NoDup (keys (mapDelete m key)).
Proof.
  induction m as [|[k e] m IH]; intros key H; simpl; auto.
  inversion H; subst.
  destruct (String.eqb k key); simpl; auto.
  constructor; auto.
  intro Hin. apply keys_mapDelete_incl in Hin. contradiction.
Qed.

Lemma mapSet_NoDup : forall m key e, NoDup (keys m) -> NoDup (keys (mapSet m key e)).
Proof.
  intros m key e H.
  destruct (keys_mapSet m key e) as [-> | [Hn ->]]; auto.
  apply NoDup_app; auto.
  - constructor; [intros []|constructor].
  - intros k Hin [<- | []]. contradiction.
Qed.

Lemma reachable_NoDup : forall c, reachable c -> NoDup (keys (cache c)).
Proof.
  induction 1.
  - constructor.
  - unfold get. destruct (mapGet (cache c) key) as [e|]; auto.
    destruct (ttlMs c <? nowCheck - timestamp e)%Z; simpl.
    + now apply mapDelete_NoDup.
    + now apply mapSet_NoDup.
  - unfold set; simpl. apply mapSet_NoDup.
    destruct (Nat.leb (maxSize c) (size c)); auto.
    unfold evictLeastUsed.
    destruct (leastUsedLoop (cache c) None None) as [k|]; auto.
    destruct (truthy k); auto. simpl. now apply mapDelete_NoDup.
Qed.

(** When a reachable cache is at capacity, holds an entry, and the entry
    selected by the scan has a non-empty key, [set] removes exactly that
    entry before it writes: the first entry of lowest hit count. *)
Lemma set_evicts_first_least_used :
  forall c now k r,
    reachable c ->
    size c = maxSize c ->
    cache c <> [] ->
    (forall key, In key (keys (cache c)) -> truthy key = true) ->
    exists key e pre post,
      firstLeastUsed (cache c) key e pre post /\
      cache (set now k r c) = mapSet (pre ++ post) k (mkEntry r now 1).
Proof.
  intros c now k r Hr Hsize Hne Hkeys.
  destruct (cache c) as [|p m] eqn:Hc; [congruence|].
  destruct (leastUsedLoop_first p m) as (key & e & pre & post & Hf & Hloop).
  exists key, e, pre, post. split; [exact Hf|].
  destruct Hf as (Hm & _ & _).
  assert (Hnd : NoDup (keys (cache c))) by now apply reachable_NoDup.
  rewrite Hc, Hm in Hnd. unfold keys in Hnd. rewrite map_app in Hnd.
  apply NoDup_remove_2 in Hnd.
  assert (Htr : truthy key = true).
  { apply Hkeys. rewrite Hm. unfold keys. rewrite map_app. apply in_or_app.
    right. simpl; auto. }
  unfold set. rewrite <- Hsize, Nat.leb_refl.
  unfold evictLeastUsed. rewrite Hc, Hloop, Htr. cbn [cache withCache].
  rewrite Hm. rewrite mapDelete_middle; auto.
  intro Hin. apply Hnd. apply in_or_app. now left.
Qed.

(** The eviction scenario for non-empty keys: when one entry has never
    been read (hit count 1) and every other entry has been read (hit count
    at least 2), [set] at capacity removes exactly the never-read entry and
    keeps the others in their order. *)
Lemma set_evicts_never_read_entry :
  forall c now k r k0 e0,
    reachable c ->
    size c = maxSize c ->
    (forall key, In key (keys (cache c)) -> truthy key = true) ->
    In (k0, e0) (cache c) ->
    hitCount e0 = 1 ->
    (forall p, In p (cache c) -> fst p <> k0 -> 2 <= hitCount (snd p)) ->
    exists pre post,
      cache c = (pre ++ (k0, e0) :: post)%list /\
      cache (set now k r c) = mapSet (pre ++ post) k (mkEntry r now 1).
Proof.
  intros c now k r k0 e0 Hr Hsize Hkeys Hin Hhit Hothers.
  assert (Hne : cache c <> []) by (intro E; rewrite E in Hin; destruct Hin).
  destruct (set_evicts_first_least_used c now k r Hr Hsize Hne Hkeys)
    as (key & e & pre & post & (Hm & Hpre & Hpost) & Hset).
  assert (Hnd : NoDup (keys (cache c))) by now apply reachable_NoDup.
  assert (Hsame : (key, e) = (k0, e0)).
  { destruct (string_dec key k0) as [-> | Hneq].
    - (* the same key: the same entry, as keys are not repeated *)
      rewrite Hm in Hin, Hnd. unfold keys in Hnd. rewrite map_app in Hnd.
      simpl in Hnd. pose proof (NoDup_remove_2 _ _ _ Hnd) as Hnot.
      apply in_app_or in Hin. destruct Hin as [Hin | [Hin | Hin]].
      + exfalso. apply Hnot. apply in_or_app. left.
        change k0 with (fst (k0, e0)). now apply in_map.
      + exact Hin.
      + exfalso. apply Hnot. apply in_or_app. right.
        change k0 with (fst (k0, e0)). now apply in_map.
    - (* another key: its entry has been read, so it is not a minimum *)
      exfalso.
      assert (H2 : 2 <= hitCount e).
      { apply (Hothers (key, e)); auto. rewrite Hm. apply in_or_app. right. now left. }
      rewrite Hm in Hin. apply in_app_or in Hin. destruct Hin as [Hin | [Hin | Hin]].
      + specialize (Hpre _ Hin). simpl in Hpre. lia.
      + inversion Hin. contradiction.
      + specialize (Hpost _ Hin). simpl in Hpost. lia. }
  inversion Hsame; subst key e.
  exists pre, post. split; assumption.
Qed.

(** C6.  A cache of the default size is filled to capacity; the entry under
    the empty key is never read and each of the 99 others is read once.  The
    next [set] removes nothing: the selected key is the empty string, which
    the test [if (leastUsedKey)] takes for no key.  The cache then holds 101
    entries and the never-read entry is still there. *)
Theorem cache_eviction_skips_empty_key :
  size filledAndRead = 100 /\
  maxSize filledAndRead = 100 /\
  option_map hitCount (mapGet (cache filledAndRead) EmptyString) = Some 1 /\
  forallb (fun k => match mapGet (cache filledAndRead) k with
                    | Some e => Nat.eqb (hitCount e) 2
                    | None => false
                    end) (tl fullKeys) = true /\
  leastUsedLoop (cache filledAndRead) None None = Some EmptyString /\
  size (set 2 "new" r0 filledAndRead) = 101 /\
  option_map hitCount (mapGet (cache (set 2 "new" r0 filledAndRead)) EmptyString) = Some 1.
Proof.
  vm_compute. repeat split; reflexivity.
Qed.

(** With the never-read entry under a non-empty key the same run removes
    that entry and the cache stays at 100 entries. *)
Lemma cache_eviction_nonempty_key :
  size filledAndRead' = 100 /\
  option_map hitCount (mapGet (cache filledAndRead') "k0") = Some 1 /\
  size (set 2 "new" r0 filledAndRead') = 100 /\
  mapGet (cache (set 2 "new" r0 filledAndRead')) "k0" = None.
Proof.
  vm_compute. repeat split; reflexivity.
Qed.

End CacheFacts.

(* ------------------------------------------------------------------ *)
(** ** Diff parser *)
(* ------------------------------------------------------------------ *)

Section ParserFacts.
Import JsString Regex Errors DiffParser ParserNotions MoreNotions.

Variable minimatch : string -> string -> bool.

Lemma determineChangeType_lengths : forall adds dels,
  determineChangeType adds dels = changeTypeOfLengths (List.length adds) (List.length dels).
Proof.
  intros [|a adds] [|d dels]; reflexivity.
Qed.

Lemma parseFileChunk_changeType : forall opts chunk d,
  parseFileChunk minimatch opts chunk = Some d ->
  changeType d = determineChangeType (additions d) (deletions d).
Proof.
  intros opts chunk d. unfold parseFileChunk.
  destruct (negb (truthy (trim chunk))); [discriminate|].
  destruct (negb (truthy (extractPath chunk)) || _); [discriminate|].
  destruct (parseChunk _ _) as [adds dels].
  intros [= <-]. reflexivity.
Qed.

Lemma parseChunks_In : forall opts chunks d,
  In d (parseChunks minimatch opts chunks) ->
  exists chunk, In chunk chunks /\ parseFileChunk minimatch opts chunk = Some d.
Proof.
  induction chunks as [|chunk rest IH]; intros d; simpl; [intros []|].
  destruct (parseFileChunk minimatch opts chunk) as [d'|] eqn:E.
  - intros [<- | Hin].
    + exists chunk; auto.
    + destruct (IH d Hin) as (ch & Hch & Hp). exists ch; auto.
  - intros Hin. destruct (IH d Hin) as (ch & Hch & Hp). exists ch; auto.
Qed.

(** C5.  In every record that [parseDiff] produces the change type is
    [added] exactly when there are additions and no deletions, [deleted]
    exactly when there are deletions and no additions, and [modified]
    otherwise (also when both are empty): it is the function
    [changeTypeOfLengths] of the two lengths. *)
Theorem parse_changeType_invariant :
  forall (diff : string) (options : DiffParseOptions) (d : ParsedDiff),
    In d (parseDiff minimatch diff options) ->
    (changeType d = added <-> deletions d = [] /\ additions d <> []) /\
    (changeType d = deleted <-> additions d = [] /\ deletions d <> []) /\
    (changeType d = modified <->
       ~ (deletions d = [] /\ additions d <> []) /\
       ~ (additions d = [] /\ deletions d <> [])) /\
    changeType d =
      changeTypeOfLengths (List.length (additions d)) (List.length (deletions d)).
Proof.
  intros diff options d Hin.
  apply parseChunks_In in Hin. destruct Hin as (chunk & _ & Hp).
  apply parseFileChunk_changeType in Hp.
  rewrite determineChangeType_lengths in Hp. rewrite Hp.
  destruct (additions d) as [|a adds]; destruct (deletions d) as [|x dels]; simpl;
    intuition (try congruence; try discriminate).
Qed.

(** *** Texts without file blocks *)

Lemma parseFileChunk_not_block : forall opts chunk,
  isFileBlock chunk = false -> parseFileChunk minimatch opts chunk = None.
Proof.
  intros opts chunk H. unfold isFileBlock in H. unfold parseFileChunk.
  destruct (truthy (trim chunk)); simpl in *; [|reflexivity].
  rewrite H. reflexivity.
Qed.



(** One record at most for each file block. *)
Lemma parseChunks_length : forall opts chunks,
  List.length (parseChunks minimatch opts chunks) <= List.length (filter isFileBlock chunks).
Proof.
  induction chunks as [|chunk rest IH]; simpl; auto.
  destruct (isFileBlock chunk) eqn:E.
  - destruct (parseFileChunk minimatch opts chunk); simpl; lia.
  - rewrite (parseFileChunk_not_block opts chunk E). exact IH.
Qed.

(** *** Texts without the path marker *)



Lemma prefix_append : forall p rest, String.prefix p (p ++ rest) = true.
Proof.
  induction p as [|a p IH]; intros rest; cbn [append String.prefix].
  - destruct rest; reflexivity.
  - destruct (ascii_dec a a) as [_ | n]; [apply IH | contradiction].
Qed.

Lemma includes_middle : forall pre p post, includes (pre ++ p ++ post) p = true.
Proof.
  induction pre as [|a pre IH]; intros p post.
  - cbn [append]. destruct (p ++ post)%string eqn:E; cbn [includes];
      rewrite <- E, prefix_append; reflexivity.
  - cbn [append includes]. rewrite IH. apply orb_true_r.
Qed.









Lemma rmatch_Star : forall (R : Type) r1 s c (k : string -> captures -> option R),
  rmatch (Star r1) s c k = starLoop (rmatch r1) k (S (String.length s)) s c.
Proof.
  reflexivity.
Qed.

Lemma rmatch_Chr_cons : forall (R : Type) p a s c (k : string -> captures -> option R),
  rmatch (Chr p) (String a s) c k = if p a then k s c else None.
Proof.
  reflexivity.
Qed.

Lemma rmatch_Seq : forall (R : Type) r1 r2 s c (k : string -> captures -> option R),
  rmatch (Seq r1 r2) s c k = rmatch r1 s c (fun s' c' => rmatch r2 s' c' k).
Proof.
  reflexivity.
Qed.









(** *** No validation of the argument and no bound on its size *)

Lemma length_append : forall s t : string,
  String.length (s ++ t) = String.length s + String.length t.
Proof.
  induction s as [|c s IH]; intros t; simpl; auto.
Qed.

Lemma lengthN_spaces : forall k, lengthN (spaces k) = (2 ^ N.of_nat k)%N.
Proof.
  unfold lengthN. induction k as [|k IH].
  - reflexivity.
  - cbn [spaces]. rewrite length_append, Nat2N.inj_add, IH.
    rewrite Nat2N.inj_succ, N.pow_succ_r'. lia.
Qed.

Lemma allSpace_append : forall s t,
  allSpace s = true -> allSpace t = true -> allSpace (s ++ t) = true.
Proof.
  induction s as [|c s IH]; intros t Hs Ht; simpl in *; auto.
  apply andb_true_iff in Hs. destruct Hs as [Hc Hs].
  rewrite Hc. simpl. auto.
Qed.

Lemma allSpace_spaces : forall k, allSpace (spaces k) = true.
Proof.
  induction k as [|k IH]; [reflexivity|].
  cbn [spaces]. now apply allSpace_append.
Qed.

Lemma allSpace_rev_append : forall r t,
  allSpace r = true -> allSpace t = true -> allSpace (JsString.rev_append r t) = true.
Proof.
  induction r as [|c r IH]; intros t Hr Ht; simpl in *; auto.
  apply andb_true_iff in Hr. destruct Hr as [Hc Hr].
  apply IH; auto. simpl. now rewrite Hc.
Qed.

Lemma trim_allSpace : forall s, allSpace s = true -> trim s = EmptyString.
Proof.
  intros s H. unfold trim.
  assert (E : trimStart s = EmptyString).
  { induction s as [|c s IH]; simpl in *; auto.
    apply andb_true_iff in H. destruct H as [Hc Hs]. rewrite Hc. auto. }
  now rewrite E.
Qed.

Lemma parseFileChunk_allSpace : forall opts chunk,
  allSpace chunk = true -> parseFileChunk minimatch opts chunk = None.
Proof.
  intros opts chunk H. apply parseFileChunk_not_block.
  unfold isFileBlock. now rewrite (trim_allSpace _ H).
Qed.

(** White space before the first marker only lengthens the first piece. *)
Lemma splitAux_leading_space : forall filler rest cur,
  allSpace filler = true ->
  splitAux "diff --git" (filler ++ rest) 0 cur =
  splitAux "diff --git" rest 0 (JsString.rev_append filler cur).
Proof.
  induction filler as [|c filler IH]; intros rest cur H; [reflexivity|].
  cbn [allSpace] in H. apply andb_true_iff in H. destruct H as [Hc Hf].
  cbn [append splitAux String.prefix JsString.rev_append].
  destruct (ascii_dec "d" c) as [<- | _]; [discriminate Hc|].
  now apply IH.
Qed.

Lemma splitAux_oneFileDiff : forall cur,
  splitAux "diff --git" oneFileDiff 0 cur =
  JsString.rev_append cur EmptyString
    :: splitAux "diff --git" (slice1 oneFileDiff) 9 EmptyString.
Proof.
  intros cur. reflexivity.
Qed.

Lemma parseDiff_leading_space : forall filler options,
  allSpace filler = true ->
  parseDiff minimatch (filler ++ oneFileDiff) options =
  parseDiff minimatch oneFileDiff options.
Proof.
  intros filler options H. unfold parseDiff, split.
  rewrite (splitAux_leading_space filler oneFileDiff EmptyString H).
  rewrite !splitAux_oneFileDiff.
  cbn [parseChunks].
  rewrite (parseFileChunk_allSpace _
             (JsString.rev_append (JsString.rev_append filler EmptyString) EmptyString)).
  2:{ apply allSpace_rev_append; [|reflexivity].
      apply allSpace_rev_append; [exact H | reflexivity]. }
  rewrite (parseFileChunk_allSpace _ (JsString.rev_append EmptyString EmptyString))
    by reflexivity.
  reflexivity.
Qed.

Lemma lengthN_append : forall s t, lengthN (s ++ t) = (lengthN s + lengthN t)%N.
Proof.
  intros s t. unfold lengthN. now rewrite length_append, Nat2N.inj_add.
Qed.

Lemma hugeDiff_eq : hugeDiff = (spaces 21 ++ oneFileDiff)%string.
Proof. reflexivity. Qed.

(** C8, as the code has it.  [parseDiff] checks neither the type nor the
    size of its argument.  A value that is not a string is not coerced: the
    method call on it raises a [TypeError].  Every string, of any length, is
    parsed: the call returns the records, at most one for each file block. *)
Theorem parse_has_no_input_validation :
  forall (v : JsValue) (options : DiffParseOptions),
    match v with
    | JsString s =>
        parseDiffValue minimatch v options = Ok (parseDiff minimatch s options) /\
        List.length (parseDiff minimatch s options) <= List.length (fileBlocks s)
    | _ =>
        exists msg, parseDiffValue minimatch v options = Err (mkError TypeErrorC msg)
    end.
Proof.
  intros [| | b | z | s] options; simpl; eauto.
  split; [reflexivity|]. apply parseChunks_length.
Qed.

End ParserFacts.

(** C8, counterexample.  A text of more than 1048576 characters (1 MB) is
    parsed like any other: the call returns the record of its file. *)
Lemma parse_accepts_oversized_input :
  (1048576 < ParserNotions.lengthN ParserNotions.hugeDiff)%N /\
  DiffParser.parseDiffValue DiffParser.simpleGlob
    (DiffParser.JsString ParserNotions.hugeDiff) DiffParser.noOptions
  = Errors.Ok [ParserNotions.fileTsRecord].
Proof.
  rewrite hugeDiff_eq. split.
  - rewrite lengthN_append, lengthN_spaces.
    change (2 ^ N.of_nat 21)%N with 2097152%N. lia.
  - cbn [DiffParser.parseDiffValue].
    rewrite (parseDiff_leading_space DiffParser.simpleGlob (ParserNotions.spaces 21)
               DiffParser.noOptions (allSpace_spaces 21)).
    vm_compute. reflexivity.
Qed.

Lemma parse_changeType_invariant_witness :
  In ParserNotions.readmeRecord
     (DiffParser.parseDiff DiffParser.simpleGlob ParserNotions.twoFileDiff
        DiffParser.noOptions) /\
  DiffParser.changeType ParserNotions.readmeRecord = ParserNotions.changeTypeOfLengths 1 0.
Proof.
  assert (H : In ParserNotions.readmeRecord
                (DiffParser.parseDiff DiffParser.simpleGlob ParserNotions.twoFileDiff
                   DiffParser.noOptions)).
  { vm_compute. right. left. reflexivity. }
  split; [exact H|].
  exact (proj2 (proj2 (proj2
    (parse_changeType_invariant DiffParser.simpleGlob ParserNotions.twoFileDiff
       DiffParser.noOptions ParserNotions.readmeRecord H)))).
Defined.


(* ------------------------------------------------------------------ *)
(** ** Prompt templates *)
(* ------------------------------------------------------------------ *)

Section TemplateFacts.
Import JsString LLMTypes PromptTemplates.

Lemma FALLBACK_COMMIT_TEMPLATE_reads_only : forall files type,
  FALLBACK_COMMIT_TEMPLATE files type =
  (changeTypeName (match type with Some t => t | None => chore end)
     ++ ": update " ++ join ", " files,
   files).
Proof.
  reflexivity.
Qed.

Lemma insertSorted_Permutation : forall x l, Permutation (x :: l) (insertSorted x l).
Proof.
  induction l as [|y l IH]; simpl; auto.
  destruct (JsString.leb x y); auto.
  eapply perm_trans; [apply perm_swap|]. now constructor.
Qed.

Lemma sorted_Permutation : forall l, Permutation l (sorted l).
Proof.
  induction l as [|x l IH]; simpl; auto.
  eapply perm_trans; [|apply insertSorted_Permutation]. now constructor.
Qed.

(** After [generateCacheKey] the caller's array holds the same paths in
    sorted order. *)
Lemma generateCacheKey_files_after : forall files diff,
  snd (generateCacheKey files diff) = sorted files /\
  Permutation files (snd (generateCacheKey files diff)).
Proof.
  intros files diff. split; [reflexivity|]. apply sorted_Permutation.
Qed.

(** C9.  [generateCacheKey] called on the array [b.ts, a.ts] returns the
    key and leaves the array as [a.ts, b.ts]: the sort is done in place, in
    the caller's array.  [FALLBACK_COMMIT_TEMPLATE] on the same array leaves
    it as it was. *)
Theorem generateCacheKey_sorts_callers_array :
  generateCacheKey ["b.ts"; "a.ts"] "x" = ("a.ts|b.ts:x", ["a.ts"; "b.ts"]) /\
  snd (generateCacheKey ["b.ts"; "a.ts"] "x") <> ["b.ts"; "a.ts"] /\
  FALLBACK_COMMIT_TEMPLATE ["b.ts"; "a.ts"] None
    = ("chore: update b.ts, a.ts", ["b.ts"; "a.ts"]).
Proof.
  repeat split; try reflexivity.
  vm_compute. discriminate.
Qed.

End TemplateFacts.

(* ------------------------------------------------------------------ *)
(** ** Commit analyzer *)
(* ------------------------------------------------------------------ *)

Section AnalyzerFacts.
Import JsString Errors Promises DiffParser LLMTypes PromptTemplates CommitAnalyzer.
Import ParserNotions Scenarios.

Variable minimatch : string -> string -> bool.
Variable inferChangeType : list string -> ChangeType.

(** *** The loop over the batches ends within its bound *)

Lemma andThen_ext : forall (A B : Type) (p : Settle A) (f g : A -> Settle B),
  (forall a, f a = g a) -> andThen p f = andThen p g.
Proof.
  intros A B [|t [a|e]] f g H; simpl; auto. now rewrite H.
Qed.

(** Any bound that covers the remaining files gives the same result: the
    loop has left the range of the indices before the bound is used up. *)
Lemma processLoop_bound : forall fuel1 fuel2 w diffs i results,
  List.length diffs - i <= fuel1 ->
  List.length diffs - i <= fuel2 ->
  processLoop fuel1 w diffs i results = processLoop fuel2 w diffs i results.
Proof.
  induction fuel1 as [|f1 IH]; intros fuel2 w diffs i results H1 H2.
  - destruct fuel2 as [|f2]; [reflexivity|].
    cbn [processLoop].
    assert (E : Nat.ltb i (List.length diffs) = false) by (apply Nat.ltb_ge; lia).
    now rewrite E.
  - cbn [processLoop].
    destruct (Nat.ltb i (List.length diffs)) eqn:E; [|destruct fuel2; cbn [processLoop]; now rewrite E].
    apply Nat.ltb_lt in E.
    destruct fuel2 as [|f2]; [lia|].
    cbn [processLoop]. assert (E' : Nat.ltb i (List.length diffs) = true) by now apply Nat.ltb_lt.
    rewrite E'. apply andThen_ext. intros batchResults.
    f_equal. apply IH; unfold BATCH_SIZE; lia.
Qed.

(** The two attempts of [withRetries(fn, MAX_RETRIES)]. *)
Lemma withRetries_two_attempts : forall (A : Type) (fn : nat -> Settle A),
  withRetries fn MAX_RETRIES 1 =
  match fn 1 with
  | Never => Never
  | At t1 (Ok a) => At t1 (Ok a)
  | At t1 (Err _) =>
      match fn 2 with
      | Never => Never
      | At t2 r2 => At (t1 + 200 + t2) r2
      end
  end.
Proof.
  intros A fn. unfold withRetries. change (MAX_RETRIES - 1) with 1.
  cbn [withRetriesFrom].
  destruct (fn 1) as [|t1 [a|e]]; try reflexivity.
  change (Nat.pow 2 1 * 100) with 200.
  destruct (fn 2) as [|t2 [a|e2]]; reflexivity.
Qed.

(** The race of [withTimeout] with the timer of [TIMEOUT_MS]. *)
Lemma withTimeout_race : forall (A : Type) (p : Settle A),
  match p with
  | Never => timedOut (withTimeout p TIMEOUT_MS)
  | At t r =>
      if Nat.leb t 2000 then withTimeout p TIMEOUT_MS = At t r
      else timedOut (withTimeout p TIMEOUT_MS)
  end.
Proof.
  intros A [|t r]; unfold withTimeout, timedOut.
  - eexists. reflexivity.
  - change (Nat.leb t TIMEOUT_MS) with (Nat.leb t 2000).
    destruct (Nat.leb t 2000); [reflexivity | eexists; reflexivity].
Qed.

(** C2, as the code has it.  Every model call of the orchestrator is one
    race between a timer of 2000 ms and the whole retry sequence: the first
    attempt, and after its failure the pause of 200 ms and the second
    attempt.  A first attempt that fulfils within 2000 ms is the outcome of
    the call, and so is a second attempt that settles less than 2000 ms after
    the call was made, pause included; when the sequence settles later than
    that, or never, the call fails at 2000 ms by the expiry of the timer. *)
Theorem callModel_one_deadline_for_all_attempts :
  forall (w : World) (site : CallSite),
    match getLLMResponse w site 1 with
    | Never => timedOut (callModel w site)
    | At t1 (Ok r) =>
        if Nat.leb t1 2000 then callModel w site = At t1 (Ok r)
        else timedOut (callModel w site)
    | At t1 (Err _) =>
        match getLLMResponse w site 2 with
        | Never => timedOut (callModel w site)
        | At t2 r2 =>
            (t1 + 200 + t2 < 2000 -> callModel w site = At (t1 + 200 + t2) r2) /\
            (2000 < t1 + 200 + t2 -> timedOut (callModel w site))
        end
    end.
Proof.
  intros w site. unfold callModel.
  rewrite withRetries_two_attempts.
  destruct (getLLMResponse w site 1) as [|t1 [r|e]].
  - apply (withTimeout_race LLMResponse Never).
  - apply (withTimeout_race LLMResponse (At t1 (Ok r))).
  - destruct (getLLMResponse w site 2) as [|t2 r2].
    + apply (withTimeout_race LLMResponse Never).
    + pose proof (withTimeout_race LLMResponse (At (t1 + 200 + t2) r2)) as H.
      cbv beta iota in H.
      split; intros Ht.
      * assert (E : Nat.leb (t1 + 200 + t2) 2000 = true) by (apply Nat.leb_le; lia).
        rewrite E in H. exact H.
      * assert (E : Nat.leb (t1 + 200 + t2) 2000 = false) by (apply Nat.leb_gt; lia).
        rewrite E in H. exact H.
Qed.

(** *** Failure of the diff retrieval *)


(** *** No staged change *)



(** *** Recovery from a failed model call *)

Lemma not_NoChangesError : forall e : JsError,
  instanceOf e LLMTimeoutErrorC || instanceOf e InvalidResponseErrorC = true ->
  instanceOf e NoChangesErrorC = false.
Proof.
  intros e He. unfold instanceOf in *.
  destruct (errClass e); try reflexivity; discriminate He.
Qed.

(** The [catch] block answers an [LLMTimeoutError] or an
    [InvalidResponseError] with the fallback message, when the staged diff
    can be read again. *)
Lemma recover_falls_back : forall (w : World) (e : JsError) (text : string) (t1 : nat),
  instanceOf e LLMTimeoutErrorC || instanceOf e InvalidResponseErrorC = true ->
  gitDiff w 1 = At t1 (Ok text) ->
  let files := map filePath (parseDiff minimatch text noOptions) in
  recover minimatch inferChangeType w e =
  At t1 (Ok (mkOutcome (changeTypeName (inferChangeType files) ++ ": update " ++ join ", " files)
               (mkAnalysis files EmptyString [] [] false))).
Proof.
  intros w e text t1 He Hgit files. unfold recover.
  rewrite (not_NoChangesError e He), He, Hgit.
  cbn [getStagedDiff andThen]. unfold FALLBACK_COMMIT_TEMPLATE, joinFiles.
  cbn [delay]. now rewrite Nat.add_0_r.
Qed.

(** A run that misses the cache and whose model calls fail with an error of
    the plain class [Error], such as the one of the timer of [withTimeout],
    is rejected with that error. *)
Lemma analyze_rethrows_plain_error :
  forall (w : World) (c : CommitCache.CommitCache) (text msg : string) (t0 t : nat),
    gitDiff w 0 = At t0 (Ok text) ->
    parseDiff minimatch text noOptions <> [] ->
    fst (checkCommitCache w (parseDiff minimatch text noOptions) c) = None ->
    generateCommitMessage w (parseDiff minimatch text noOptions)
      = At t (Err (mkError ErrorC msg)) ->
    fst (analyzeCommit minimatch inferChangeType w c)
    = At (t0 + t) (Err (mkError ErrorC msg)).
Proof.
  intros w c text msg t0 t Hgit Hne Hmiss Hgen.
  unfold analyzeCommit. rewrite Hgit. cbn [getStagedDiff].
  destruct (parseDiff minimatch text noOptions) as [|d ds] eqn:E; [congruence|].
  cbn [List.length Nat.eqb].
  destruct (checkCommitCache w (d :: ds) c) as [[cached|] c1]; [discriminate Hmiss|].
  rewrite Hgen. cbn [fst]. unfold recover, instanceOf.
  cbn [errClass classEqb orb delay]. now rewrite Nat.add_0_r.
Qed.

(** When the staged diff cannot be read again in the [catch] block, the
    wrapping error of this second failure is thrown. *)
Lemma recover_second_git_failure : forall (w : World) (e e2 : JsError) (t1 : nat),
  instanceOf e LLMTimeoutErrorC || instanceOf e InvalidResponseErrorC = true ->
  gitDiff w 1 = At t1 (Err e2) ->
  recover minimatch inferChangeType w e
  = At t1 (Err (mkError ErrorC ("Failed to get staged diff: " ++ message e2))).
Proof.
  intros w e e2 t1 He Hgit. unfold recover.
  rewrite (not_NoChangesError e He), He, Hgit. reflexivity.
Qed.

(** An error of the plain class [Error], such as the one of the timer of
    [withTimeout], is thrown again. *)
Lemma recover_rethrows_plain_error : forall (w : World) (msg : string),
  recover minimatch inferChangeType w (mkError ErrorC msg) = At 0 (Err (mkError ErrorC msg)).
Proof.
  reflexivity.
Qed.

End AnalyzerFacts.




(** With nothing staged the command gives the empty text, as in the test
    of the analyzer, and the run returns the fixed message. *)
Lemma analyze_nothing_staged :
  CommitAnalyzer.analyzeCommit DiffParser.simpleGlob Scenarios.inferChore
    Scenarios.nothingStagedWorld CacheStates.emptyCache
  = (Promises.At 0 (Errors.Ok Scenarios.noChangesOutcome), CacheStates.emptyCache).
Proof.
  reflexivity.
Qed.


(** C2, counterexample.  Each of the two attempts settles in less than
    2000 ms, the first after 1500 ms with text that is not JSON and the
    second after 1000 ms with a valid reply.  With one timer for each attempt
    the call would fulfil after 2700 ms.  The call of the orchestrator is
    rejected at 2000 ms, by an [Error] that is not an [LLMTimeoutError]. *)
Lemma callModel_timer_spans_the_retries :
  (forall attempt, exists t r,
      CommitAnalyzer.getLLMResponse Scenarios.slowRetryWorld (CommitAnalyzer.FileCall 0) attempt
      = Promises.At t r /\ t < 2000) /\
  CommitAnalyzer.callModel Scenarios.slowRetryWorld (CommitAnalyzer.FileCall 0)
  = Promises.At 2000 (Errors.Err Scenarios.timerError) /\
  Errors.instanceOf Scenarios.timerError Errors.LLMTimeoutErrorC = false /\
  Scenarios.callModelPerAttempt Scenarios.slowRetryWorld (CommitAnalyzer.FileCall 0)
  = Promises.At 2700
      (Errors.Ok (LLMTypes.mkResponse "feat(x): add y" LLMTypes.feat (Some "x") false None)).
Proof.
  repeat split; try reflexivity.
  intros [|[|n]]; eexists _, _; (split; [reflexivity|]);
    apply Nat.ltb_lt; reflexivity.
Qed.

(** C1.  One file is staged and the provider never answers.  The timer of
    [withTimeout] rejects the call with a plain [Error]; the [catch] block
    of [analyzeCommit] recovers only from [LLMTimeoutError] and
    [InvalidResponseError], so the run is rejected with the error of the
    timer and no fallback message is returned.  When instead every reply is
    malformed and arrives in time, the run returns the fallback message. *)
Theorem analyze_rejects_on_timer_expiry :
  DiffParser.parseDiff DiffParser.simpleGlob ParserNotions.oneFileDiff DiffParser.noOptions
  = [ParserNotions.fileTsRecord] /\
  CommitAnalyzer.analyzeCommit DiffParser.simpleGlob Scenarios.inferChore
    Scenarios.silentWorld CacheStates.emptyCache
  = (Promises.At 2000 (Errors.Err Scenarios.timerError), CacheStates.emptyCache) /\
  CommitAnalyzer.analyzeCommit DiffParser.simpleGlob Scenarios.inferChore
    Scenarios.malformedWorld CacheStates.emptyCache
  = (Promises.At 220
       (Errors.Ok (CommitAnalyzer.mkOutcome "chore: update src/file.ts"
                     (LLMTypes.mkAnalysis ["src/file.ts"] EmptyString [] [] false))),
     CacheStates.emptyCache).
Proof.
  repeat split; vm_compute; reflexivity.
Qed.

(* ------------------------------------------------------------------ *)
(** ** Commit cache: expiry, frame and size *)
(* ------------------------------------------------------------------ *)

Section MoreCacheFacts.
Import JsString LLMTypes CommitCache CacheStates MoreNotions.

Lemma mapGet_None_not_In : forall m key, mapGet m key = None -> ~ In key (keys m).
Proof.
  induction m as [|[k e] m IH]; intros key H; simpl in *; [tauto|].
  destruct (String.eqb k key) eqn:E; [discriminate|].
  apply String.eqb_neq in E. intros [H1 | H1]; [contradiction|].
  now apply (IH key).
Qed.

Lemma mapGet_Some_In_keys : forall m key e, mapGet m key = Some e -> In key (keys m).
Proof.
  intros m key e H. apply mapGet_In in H.
  change key with (fst (key, e)). now apply in_map.
Qed.

Lemma mapGet_mapDelete_same : forall m key,
  NoDup (keys m) -> mapGet (mapDelete m key) key = None.
Proof.
  induction m as [|[k e] m IH]; intros key Hnd; simpl; auto.
  inversion Hnd; subst.
  destruct (String.eqb k key) eqn:E; simpl.
  - apply String.eqb_eq in E. subst k.
    destruct (mapGet m key) eqn:G; auto.
    exfalso. eapply mapGet_Some_In_keys in G. contradiction.
  - rewrite E. now apply IH.
Qed.

Lemma mapGet_mapDelete_other : forall m key key',
  key <> key' -> mapGet (mapDelete m key) key' = mapGet m key'.
Proof.
  induction m as [|[k e] m IH]; intros key key' Hne; simpl; auto.
  destruct (String.eqb k key) eqn:E; simpl.
  - apply String.eqb_eq in E. subst k.
    destruct (String.eqb key key') eqn:E'; auto.
    apply String.eqb_eq in E'. contradiction.
  - destruct (String.eqb k key'); auto.
Qed.

Lemma length_mapDelete_present : forall m key,
  In key (keys m) -> S (List.length (mapDelete m key)) = List.length m.
Proof.
  induction m as [|[k e] m IH]; intros key H; simpl in *; [tauto|].
  destruct (String.eqb k key) eqn:E; simpl; auto.
  apply String.eqb_neq in E. destruct H as [H | H]; [contradiction|].
  now rewrite IH.
Qed.

Lemma length_mapSet_present : forall m key e,
  In key (keys m) -> List.length (mapSet m key e) = List.length m.
Proof.
  induction m as [|[k e'] m IH]; intros key e H; simpl in *; [tauto|].
  destruct (String.eqb k key) eqn:E; simpl; auto.
  apply String.eqb_neq in E. destruct H as [H | H]; [contradiction|].
  now rewrite IH.
Qed.

Lemma length_mapSet_le : forall m key e,
  List.length (mapSet m key e) <= S (List.length m).
Proof.
  induction m as [|[k e'] m IH]; intros key e; simpl; auto.
  destruct (String.eqb k key); simpl; auto.
  specialize (IH key e). lia.
Qed.

Lemma mapSet_absent : forall m key e,
  ~ In key (keys m) -> mapSet m key e = (m ++ [(key, e)])%list.
Proof.
  induction m as [|[k e'] m IH]; intros key e H; simpl in *; auto.
  destruct (String.eqb k key) eqn:E.
  - apply String.eqb_eq in E. tauto.
  - f_equal. apply IH. tauto.
Qed.

(** X1.  A read of an entry whose age exceeds the time to live returns
    nothing and removes the entry: the key is absent afterwards, the cache
    has one entry less, and every other key keeps its entry. *)
Theorem cache_get_expired_removes :
  forall (c : CommitCache) (nowCheck nowTouch : Z) (k : string) (e : CacheEntry),
    reachable c ->
    mapGet (cache c) k = Some e ->
    (ttlMs c < nowCheck - timestamp e)%Z ->
    fst (get nowCheck nowTouch k c) = None /\
    mapGet (cache (snd (get nowCheck nowTouch k c))) k = None /\
    S (size (snd (get nowCheck nowTouch k c))) = size c /\
    (forall k', k' <> k ->
       mapGet (cache (snd (get nowCheck nowTouch k c))) k' = mapGet (cache c) k').
Proof.
  intros c nowCheck nowTouch k e Hr Hg Hexp.
  unfold get. rewrite Hg.
  assert (E : (ttlMs c <? nowCheck - timestamp e)%Z = true) by now apply Z.ltb_lt.
  rewrite E. cbn [fst snd cache withCache size].
  repeat split.
  - apply mapGet_mapDelete_same. now apply reachable_NoDup.
  - apply length_mapDelete_present. eapply mapGet_Some_In_keys; eauto.
  - intros k' Hne. apply mapGet_mapDelete_other. congruence.
Qed.

Lemma cache_get_expired_removes_witness :
  reachable (set 0 "key" r0 emptyCache) /\
  mapGet (cache (set 0 "key" r0 emptyCache)) "key" = Some (mkEntry r0 0 1) /\
  (ttlMs (set 0 "key" r0 emptyCache) < 86400001 - timestamp (mkEntry r0 0 1))%Z /\
  fst (get 86400001 86400001 "key" (set 0 "key" r0 emptyCache)) = None /\
  mapGet (cache (snd (get 86400001 86400001 "key" (set 0 "key" r0 emptyCache)))) "key" = None.
Proof.
  assert (Hr : reachable (set 0 "key" r0 emptyCache)) by (apply reach_set, reach_new).
  assert (Hg : mapGet (cache (set 0 "key" r0 emptyCache)) "key" = Some (mkEntry r0 0 1))
    by reflexivity.
  assert (Hx : (ttlMs (set 0 "key" r0 emptyCache) < 86400001 - timestamp (mkEntry r0 0 1))%Z)
    by (vm_compute; reflexivity).
  destruct (cache_get_expired_removes (set 0 "key" r0 emptyCache) 86400001 86400001
              "key" (mkEntry r0 0 1) Hr Hg Hx) as (H1 & H2 & _).
  split; [exact Hr|]. split; [exact Hg|]. split; [exact Hx|].
  split; [exact H1 | exact H2].
Defined.

(** X2.  A read never touches another key and never makes the cache grow:
    after [get(k)] every other key has the entry it had, with the same
    response, timestamp and hit count, and the size has not increased. *)
Theorem cache_get_frame :
  forall (c : CommitCache) (nowCheck nowTouch : Z) (k k' : string),
    k' <> k ->
    mapGet (cache (snd (get nowCheck nowTouch k c))) k' = mapGet (cache c) k' /\
    size (snd (get nowCheck nowTouch k c)) <= size c /\
    maxSize (snd (get nowCheck nowTouch k c)) = maxSize c /\
    ttlMs (snd (get nowCheck nowTouch k c)) = ttlMs c.
Proof.
  intros c nowCheck nowTouch k k' Hne. unfold get.
  destruct (mapGet (cache c) k) as [e|] eqn:G; [|auto].
  destruct (ttlMs c <? nowCheck - timestamp e)%Z; cbn [fst snd cache withCache size maxSize ttlMs].
  - repeat split; auto.
    + apply mapGet_mapDelete_other. congruence.
    + pose proof (length_mapDelete_present (cache c) k (mapGet_Some_In_keys _ _ _ G)).
      unfold size. cbn [cache withCache]. lia.
  - repeat split; auto.
    + apply mapGet_mapSet_other. congruence.
    + unfold size. cbn [cache withCache]. rewrite length_mapSet_present; auto.
      eapply mapGet_Some_In_keys; eauto.
Qed.

Lemma cache_get_frame_witness :
  "other" <> "key" /\
  mapGet (cache (snd (get 5 6 "key" (set 0 "key" r0 emptyCache)))) "other"
  = mapGet (cache (set 0 "key" r0 emptyCache)) "other".
Proof.
  assert (H : "other" <> "key") by discriminate.
  split; [exact H|].
  exact (proj1 (cache_get_frame (set 0 "key" r0 emptyCache) 5 6 "key" "other" H)).
Defined.

(** X3.  The time to live is counted from the last read, not from the
    write: after a live read whose refresh is at [nowTouch], a later read is
    live as long as it comes within the time to live of [nowTouch], however
    old the entry is, and it returns the stored response. *)
Theorem cache_ttl_slides_on_read :
  forall (c : CommitCache) (n1 nowTouch n3 n4 : Z) (k : string) (e : CacheEntry),
    mapGet (cache c) k = Some e ->
    (n1 - timestamp e <= ttlMs c)%Z ->
    (n3 - nowTouch <= ttlMs c)%Z ->
    fst (get n3 n4 k (snd (get n1 nowTouch k c))) = Some (response e) /\
    mapGet (cache (snd (get n3 n4 k (snd (get n1 nowTouch k c))))) k
    = Some (mkEntry (response e) n4 (S (S (hitCount e)))).
Proof.
  intros c n1 nowTouch n3 n4 k e Hg H1 H3.
  assert (E1 : (ttlMs c <? n1 - timestamp e)%Z = false) by (apply Z.ltb_ge; lia).
  assert (E3 : (ttlMs c <? n3 - nowTouch)%Z = false) by (apply Z.ltb_ge; lia).
  unfold get at 2 4. rewrite Hg, E1. cbn [fst snd].
  unfold get. cbn [cache withCache ttlMs]. rewrite mapGet_mapSet_same.
  cbn [timestamp response hitCount]. rewrite E3. cbn [fst snd cache withCache].
  split; [reflexivity|]. apply mapGet_mapSet_same.
Qed.

Lemma cache_ttl_slides_on_read_witness :
  mapGet (cache (set 0 "key" r0 emptyCache)) "key" = Some (mkEntry r0 0 1) /\
  (80000000 - timestamp (mkEntry r0 0 1) <= ttlMs (set 0 "key" r0 emptyCache))%Z /\
  (160000000 - 80000000 <= ttlMs (set 0 "key" r0 emptyCache))%Z /\
  fst (get 160000000 160000000 "key"
         (snd (get 80000000 80000000 "key" (set 0 "key" r0 emptyCache)))) = Some r0.
Proof.
  assert (Hg : mapGet (cache (set 0 "key" r0 emptyCache)) "key" = Some (mkEntry r0 0 1))
    by reflexivity.
  assert (H1 : (80000000 - timestamp (mkEntry r0 0 1) <= ttlMs (set 0 "key" r0 emptyCache))%Z)
    by (vm_compute; discriminate).
  assert (H3 : (160000000 - 80000000 <= ttlMs (set 0 "key" r0 emptyCache))%Z)
    by (vm_compute; discriminate).
  split; [exact Hg|]. split; [exact H1|]. split; [exact H3|].
  exact (proj1 (cache_ttl_slides_on_read (set 0 "key" r0 emptyCache)
                  80000000 80000000 160000000 160000000 "key" (mkEntry r0 0 1) Hg H1 H3)).
Defined.

(** X4.  Below capacity a write evicts nothing: every other key keeps its
    entry, and the size grows by one for a new key and stays for a present
    one. *)
Theorem cache_set_below_capacity_keeps_entries :
  forall (c : CommitCache) (now : Z) (k : string) (r : LLMResponse),
    size c < maxSize c ->
    (forall k', k' <> k -> mapGet (cache (set now k r c)) k' = mapGet (cache c) k') /\
    (mapGet (cache c) k = None -> cache (set now k r c) = (cache c ++ [(k, mkEntry r now 1)])%list) /\
    (mapGet (cache c) k <> None -> size (set now k r c) = size c).
Proof.
  intros c now k r Hlt. unfold set.
  assert (E : Nat.leb (maxSize c) (size c) = false) by (apply Nat.leb_gt; exact Hlt).
  rewrite E. cbn [cache withCache size]. repeat split.
  - intros k' Hne. apply mapGet_mapSet_other. congruence.
  - intros Hn. apply mapSet_absent. now apply mapGet_None_not_In.
  - intros Hs. destruct (mapGet (cache c) k) as [e|] eqn:G; [|congruence].
    apply length_mapSet_present. eapply mapGet_Some_In_keys; eauto.
Qed.

Lemma cache_set_below_capacity_keeps_entries_witness :
  size (set 0 "key" r0 emptyCache) < maxSize (set 0 "key" r0 emptyCache) /\
  mapGet (cache (set 1 "other" r0 (set 0 "key" r0 emptyCache))) "key"
  = mapGet (cache (set 0 "key" r0 emptyCache)) "key".
Proof.
  assert (H : size (set 0 "key" r0 emptyCache) < maxSize (set 0 "key" r0 emptyCache))
    by (apply Nat.ltb_lt; reflexivity).
  split; [exact H|].
  refine (proj1 (cache_set_below_capacity_keeps_entries
                   (set 0 "key" r0 emptyCache) 1 "other" r0 H) "key" _).
  discriminate.
Defined.

Lemma reachableNonEmpty_reachable : forall c, reachableNonEmpty c -> reachable c.
Proof.
  induction 1; constructor; auto.
Qed.

Lemma reachableNonEmpty_keys : forall c,
  reachableNonEmpty c -> forall key, In key (keys (cache c)) -> truthy key = true.
Proof.
  induction 1 as [m t | c n1 n2 k Hc IH | c now k r Hk Hc IH]; intros key Hin.
  - destruct Hin.
  - unfold get in Hin. destruct (mapGet (cache c) k) as [e|] eqn:G; [|auto].
    destruct (ttlMs c <? n1 - timestamp e)%Z; cbn [snd cache withCache] in Hin.
    + apply IH. eapply keys_mapDelete_incl; eauto.
    + destruct (keys_mapSet (cache c) k (mkEntry (response e) n2 (S (hitCount e))))
        as [E | [Hn E]]; rewrite E in Hin; auto.
      exfalso. apply Hn. eapply mapGet_Some_In_keys; eauto.
  - unfold set in Hin. cbn [cache withCache] in Hin.
    set (c1 := if Nat.leb (maxSize c) (size c) then evictLeastUsed c else c) in *.
    assert (Hc1 : forall key, In key (keys (cache c1)) -> truthy key = true).
    { intros key' Hin'. apply IH. subst c1.
      destruct (Nat.leb (maxSize c) (size c)); auto.
      unfold evictLeastUsed in Hin'.
      destruct (leastUsedLoop (cache c) None None) as [lk|]; auto.
      destruct (truthy lk); auto.
      cbn [cache withCache] in Hin'. eapply keys_mapDelete_incl; eauto. }
    destruct (keys_mapSet (cache c1) k (mkEntry r now 1)) as [E | [Hn E]];
      rewrite E in Hin; auto.
    apply in_app_or in Hin. destruct Hin as [Hin | [<- | []]]; auto.
Qed.

Lemma evictLeastUsed_maxSize : forall c, maxSize (evictLeastUsed c) = maxSize c.
Proof.
  intros c. unfold evictLeastUsed.
  destruct (leastUsedLoop (cache c) None None) as [k|]; auto.
  destruct (truthy k); auto.
Qed.

Lemma set_maxSize : forall now key r c, maxSize (set now key r c) = maxSize c.
Proof.
  intros. unfold set; simpl.
  destruct (Nat.leb (maxSize c) (size c)); auto using evictLeastUsed_maxSize.
Qed.

Lemma get_maxSize : forall n1 n2 key c, maxSize (snd (get n1 n2 key c)) = maxSize c.
Proof.
  intros. unfold get. destruct (mapGet (cache c) key) as [e|]; auto.
  destruct (ttlMs c <? n1 - timestamp e)%Z; auto.
Qed.

Lemma filledAndRead'_reachableNonEmpty : reachableNonEmpty filledAndRead'.
Proof.
  unfold filledAndRead', filled'.
  assert (Hs : forall ks c, reachableNonEmpty c ->
                 forallb truthy ks = true ->
                 reachableNonEmpty (fold_left (fun c k => set 0 k r0 c) ks c)).
  { induction ks as [|k ks IH]; intros c Hc Hk; simpl; auto.
    simpl in Hk. apply andb_true_iff in Hk. destruct Hk as [Hk1 Hk2].
    apply IH; auto. now apply rne_set. }
  assert (Hg : forall ks c, reachableNonEmpty c ->
                 reachableNonEmpty (fold_left (fun c k => snd (get 1 1 k c)) ks c)).
  { induction ks as [|k ks IH]; intros c Hc; simpl; auto.
    apply IH. now apply rne_get. }
  apply Hg. apply Hs; [apply rne_new | reflexivity].
Qed.

(** X5.  When every key written is a non-empty string the cache never
    holds more entries than its capacity (one entry for a capacity of
    zero), through any sequence of reads and writes. *)
Theorem cache_size_bounded :
  forall c : CommitCache,
    reachableNonEmpty c -> size c <= Nat.max (maxSize c) 1.
Proof.
  induction 1 as [m t | c n1 n2 k Hc IH | c now k r Hk Hc IH].
  - cbn. lia.
  - rewrite get_maxSize.
    unfold get. destruct (mapGet (cache c) k) as [e|] eqn:G; [|exact IH].
    unfold size in *.
    destruct (ttlMs c <? n1 - timestamp e)%Z; cbn [snd cache withCache].
    + pose proof (length_mapDelete_present (cache c) k (mapGet_Some_In_keys _ _ _ G)).
      lia.
    + rewrite length_mapSet_present; [exact IH|]. eapply mapGet_Some_In_keys; eauto.
  - rewrite set_maxSize. unfold set. unfold size at 1. cbn [cache withCache].
    destruct (Nat.leb (maxSize c) (size c)) eqn:E.
    + (* at capacity: one entry leaves, unless the cache is empty *)
      unfold evictLeastUsed.
      destruct (cache c) as [|p m] eqn:Hcache.
      * cbn [leastUsedLoop]. rewrite Hcache. cbn. lia.
      * destruct (leastUsedLoop_first p m) as (key & e & pre & post & (Hm & _ & _) & Hloop).
        rewrite Hloop.
        assert (Hin : In key (keys (cache c))).
        { rewrite Hcache, Hm. unfold keys. rewrite map_app. apply in_or_app.
          right. now left. }
        rewrite (reachableNonEmpty_keys c Hc key Hin).
        cbn [cache withCache].
        pose proof (length_mapDelete_present (p :: m) key) as Hd.
        rewrite Hcache in Hin. specialize (Hd Hin).
        pose proof (length_mapSet_le (mapDelete (p :: m) key) k (mkEntry r now 1)).
        unfold size in IH. rewrite Hcache in IH. lia.
    + apply Nat.leb_gt in E.
      pose proof (length_mapSet_le (cache c) k (mkEntry r now 1)).
      unfold size in E. lia.
Qed.

Lemma cache_size_bounded_witness :
  reachableNonEmpty (set 2 "new" r0 filledAndRead') /\
  size (set 2 "new" r0 filledAndRead') <= Nat.max (maxSize (set 2 "new" r0 filledAndRead')) 1.
Proof.
  assert (H : reachableNonEmpty (set 2 "new" r0 filledAndRead'))
    by (apply rne_set; [reflexivity | apply filledAndRead'_reachableNonEmpty]).
  split; [exact H|]. exact (cache_size_bounded _ H).
Defined.

(** X6.  At capacity, with non-empty keys, a write of a new key removes
    exactly one entry, the first in insertion order among those of lowest
    hit count, keeps the others in their order, puts the new entry last, and
    leaves the cache at capacity. *)
Theorem cache_set_at_capacity_replaces_first_least_used :
  forall (c : CommitCache) (now : Z) (k : string) (r : LLMResponse),
    reachable c ->
    size c = maxSize c ->
    cache c <> [] ->
    (forall key, In key (keys (cache c)) -> truthy key = true) ->
    mapGet (cache c) k = None ->
    exists key e pre post,
      firstLeastUsed (cache c) key e pre post /\
      cache (set now k r c) = (pre ++ post ++ [(k, mkEntry r now 1)])%list /\
      mapGet (cache (set now k r c)) key = None /\
      size (set now k r c) = maxSize c.
Proof.
  intros c now k r Hr Hsize Hne Hkeys Hnew.
  destruct (set_evicts_first_least_used c now k r Hr Hsize Hne Hkeys)
    as (key & e & pre & post & Hf & Hset).
  exists key, e, pre, post.
  pose proof Hf as (Hm & _ & _).
  assert (Hnd : NoDup (keys (cache c))) by now apply reachable_NoDup.
  assert (Hk : ~ In k (keys (pre ++ post))).
  { intro Hin. apply (mapGet_None_not_In _ _ Hnew).
    rewrite Hm. unfold keys in *. rewrite map_app in *.
    apply in_app_or in Hin. apply in_or_app. simpl. tauto. }
  assert (Hcache : cache (set now k r c) = (pre ++ post ++ [(k, mkEntry r now 1)])%list).
  { rewrite Hset, mapSet_absent; auto. now rewrite <- app_assoc. }
  split; [exact Hf|]. split; [exact Hcache|]. split.
  - (* the evicted key is gone *)
    assert (Hkk : key <> k).
    { intros ->. apply (mapGet_None_not_In _ _ Hnew). rewrite Hm.
      unfold keys. rewrite map_app. apply in_or_app. right. now left. }
    rewrite Hset, mapGet_mapSet_other by congruence.
    destruct (mapGet (pre ++ post) key) as [e'|] eqn:G; auto.
    exfalso. apply mapGet_Some_In_keys in G.
    rewrite Hm in Hnd. unfold keys in Hnd, G. rewrite map_app in Hnd, G.
    simpl in Hnd. apply NoDup_remove_2 in Hnd. contradiction.
  - unfold size. rewrite Hcache, <- Hsize. unfold size. rewrite Hm.
    rewrite !length_app. simpl. lia.
Qed.

Lemma cache_set_at_capacity_replaces_first_least_used_witness :
  reachable filledAndRead' /\
  size filledAndRead' = maxSize filledAndRead' /\
  mapGet (cache filledAndRead') "new" = None /\
  exists key e pre post,
    firstLeastUsed (cache filledAndRead') key e pre post /\
    cache (set 2 "new" r0 filledAndRead') = (pre ++ post ++ [("new", mkEntry r0 2 1)])%list.
Proof.
  assert (Hr : reachable filledAndRead')
    by (apply reachableNonEmpty_reachable, filledAndRead'_reachableNonEmpty).
  assert (Hs : size filledAndRead' = maxSize filledAndRead') by reflexivity.
  assert (Hne : cache filledAndRead' <> []) by (vm_compute; discriminate).
  assert (Hk : forall key, In key (keys (cache filledAndRead')) -> truthy key = true).
  { assert (Hall : forallb truthy (keys (cache filledAndRead')) = true) by reflexivity.
    rewrite forallb_forall in Hall. exact Hall. }
  assert (Hn : mapGet (cache filledAndRead') "new" = None) by reflexivity.
  split; [exact Hr|]. split; [exact Hs|]. split; [exact Hn|].
  destruct (cache_set_at_capacity_replaces_first_least_used
              filledAndRead' 2 "new" r0 Hr Hs Hne Hk Hn)
    as (key & e & pre & post & Hf & Hc & _).
  exists key, e, pre, post. split; assumption.
Defined.

End MoreCacheFacts.

(* ------------------------------------------------------------------ *)
(** ** Diff parser: what a record holds *)
(* ------------------------------------------------------------------ *)

Section MoreParserFacts.
Import JsString Regex Errors DiffParser ParserNotions MoreNotions.

Variable minimatch : string -> string -> bool.

Lemma startsWith_plus_not_minus : forall line,
  startsWith line "+" = true -> startsWith line "-" = false.
Proof.
  intros [|c line]; unfold startsWith; cbn [String.prefix]; [discriminate|].
  destruct (ascii_dec "+" c) as [<- | _]; [reflexivity | discriminate].
Qed.

Lemma isAddition_not_deletion : forall line,
  isAdditionLine line = true -> isDeletionLine line = false.
Proof.
  intros line H. unfold isAdditionLine in H. unfold isDeletionLine.
  apply andb_true_iff in H. destruct H as [H _].
  now rewrite (startsWith_plus_not_minus _ H).
Qed.

Lemma capped_length_below : forall (A : Type) (cap : option nat) (l : list A),
  belowCap (List.length (capped cap l)) cap = true ->
  forall x, capped cap (l ++ [x]) = (capped cap l ++ [x])%list.
Proof.
  intros A [n|] l H x; cbn [capped belowCap] in *; auto.
  apply Nat.ltb_lt in H. rewrite length_firstn in H.
  assert (Hl : List.length l < n) by lia.
  rewrite !firstn_all2 by (rewrite ?length_app; simpl; lia). reflexivity.
Qed.

Lemma capped_length_full : forall (A : Type) (cap : option nat) (l : list A),
  belowCap (List.length (capped cap l)) cap = false ->
  forall x, capped cap (l ++ [x]) = capped cap l.
Proof.
  intros A [n|] l H x; cbn [capped belowCap] in *; [|discriminate].
  apply Nat.ltb_ge in H. rewrite length_firstn in H.
  assert (Hl : n <= List.length l) by lia.
  rewrite firstn_app. replace (n - List.length l) with 0 by lia.
  cbn [firstn]. now rewrite app_nil_r.
Qed.

(** The loop of [parseChunk] on what has been seen so far. *)
Lemma parseChunkLoop_spec : forall lines cap seenAdds seenDels,
  parseChunkLoop lines cap (capped cap seenAdds) (capped cap seenDels) =
  (capped cap (seenAdds ++ map storedLine (filter isAdditionLine lines)),
   capped cap (seenDels ++ map storedLine (filter isDeletionLine lines))).
Proof.
  induction lines as [|line lines IH]; intros cap seenAdds seenDels.
  - cbn. now rewrite !app_nil_r.
  - cbn [parseChunkLoop filter].
    change (startsWith line "+" && negb (startsWith line "+++")) with (isAdditionLine line).
    change (startsWith line "-" && negb (startsWith line "---")) with (isDeletionLine line).
    destruct (isAdditionLine line) eqn:Ea.
    + rewrite (isAddition_not_deletion _ Ea). cbn [map].
      change (sanitizeLine (slice1 line)) with (storedLine line).
      destruct (belowCap (List.length (capped cap seenAdds)) cap) eqn:Eb.
      * rewrite <- (capped_length_below _ _ _ Eb). rewrite IH.
        now rewrite <- app_assoc.
      * rewrite <- (capped_length_full _ _ _ Eb (storedLine line)). rewrite IH.
        now rewrite <- app_assoc.
    + destruct (isDeletionLine line) eqn:Ed.
      * cbn [map]. change (sanitizeLine (slice1 line)) with (storedLine line).
        destruct (belowCap (List.length (capped cap seenDels)) cap) eqn:Eb.
        -- rewrite <- (capped_length_below _ _ _ Eb). rewrite IH.
           now rewrite <- app_assoc.
        -- rewrite <- (capped_length_full _ _ _ Eb (storedLine line)). rewrite IH.
           now rewrite <- app_assoc.
      * apply IH.
Qed.

Lemma capped_nil : forall (A : Type) (cap : option nat), capped cap (@nil A) = [].
Proof.
  intros A [[|n]|]; reflexivity.
Qed.

Lemma parseChunk_spec : forall lines maxLines,
  parseChunk lines maxLines =
  (capped maxLines (map storedLine (filter isAdditionLine lines)),
   capped maxLines (map storedLine (filter isDeletionLine lines))).
Proof.
  intros lines maxLines. unfold parseChunk.
  pose proof (parseChunkLoop_spec lines maxLines [] []) as H.
  rewrite !capped_nil in H. exact H.
Qed.

(** X7.  [parseChunk] keeps, in the order of the lines, the stored form of
    the lines that start with one or two plus signs as additions and of
    those that start with one or two minus signs as deletions, each list cut
    after [maxLines] entries: nothing is kept for a limit of 0, and nothing
    is cut when the limit is [undefined] ([None]).  Lines beyond the limit
    are dropped and all other lines are ignored. *)
Theorem parseChunk_keeps_first_lines :
  forall (lines : list string) (maxLines : option nat),
    parseChunk lines maxLines =
    (capped maxLines (map storedLine (filter isAdditionLine lines)),
     capped maxLines (map storedLine (filter isDeletionLine lines))) /\
    parseChunk lines (Some 0) = ([], []) /\
    parseChunk lines None =
    (map storedLine (filter isAdditionLine lines),
     map storedLine (filter isDeletionLine lines)).
Proof.
  intros lines maxLines. split; [apply parseChunk_spec|].
  split; rewrite parseChunk_spec; reflexivity.
Qed.

Lemma parseFileChunk_inv : forall opts chunk d,
  parseFileChunk minimatch opts chunk = Some d ->
  truthy (trim chunk) = true /\
  filePath d = extractPath chunk /\
  truthy (filePath d) = true /\
  shouldExcludeFile minimatch (filePath d) (readField (excludePatterns opts)) = false /\
  (additions d, deletions d)
    = parseChunk (split chunk (String LF EmptyString)) (readField (maxLinesPerFile opts)).
Proof.
  intros opts chunk d. unfold parseFileChunk.
  destruct (truthy (trim chunk)); cbn [negb]; [|discriminate].
  destruct (truthy (extractPath chunk)) eqn:Ep; cbn [negb orb]; [|discriminate].
  destruct (shouldExcludeFile minimatch (extractPath chunk)
              (readField (excludePatterns opts))) eqn:Ex;
    [discriminate|].
  destruct (parseChunk _ _) as [adds dels].
  intros [= <-]. cbn. auto.
Qed.

Lemma capped_In : forall (A : Type) (cap : option nat) (l : list A) (x : A),
  In x (capped cap l) -> In x l.
Proof.
  intros A [n|] l x H; cbn in H; auto.
  rewrite <- (firstn_skipn n l). apply in_or_app. now left.
Qed.

(** What [parseDiff] reads of the merged options is what is in effect. *)
Lemma merged_cap : forall options,
  readField (maxLinesPerFile (mergeOptions options)) = effectiveCap options.
Proof.
  intros options. unfold mergeOptions, effectiveCap. cbn.
  destruct (maxLinesPerFile options) as [|[n|]]; reflexivity.
Qed.

Lemma merged_patterns : forall options path,
  shouldExcludeFile minimatch path (readField (excludePatterns (mergeOptions options)))
  = existsb (fun pattern => minimatch path pattern) (effectivePatterns options).
Proof.
  intros options path. unfold mergeOptions, effectivePatterns. cbn.
  destruct (excludePatterns options) as [|[ps|]]; reflexivity.
Qed.

(** Every record comes from one chunk of the text. *)
Lemma parseDiff_record : forall diff options d,
  In d (parseDiff minimatch diff options) ->
  exists chunk,
    In chunk (split diff "diff --git") /\
    filePath d = extractPath chunk /\
    truthy (filePath d) = true /\
    existsb (fun pattern => minimatch (filePath d) pattern) (effectivePatterns options)
    = false /\
    additions d
    = capped (effectiveCap options) (map storedLine (filter isAdditionLine (split chunk nl))) /\
    deletions d
    = capped (effectiveCap options) (map storedLine (filter isDeletionLine (split chunk nl))).
Proof.
  intros diff options d Hin.
  apply parseChunks_In in Hin. destruct Hin as (chunk & Hchunk & Hp).
  apply parseFileChunk_inv in Hp. destruct Hp as (_ & Hpath & Ht & Hx & Hpc).
  rewrite merged_patterns in Hx. rewrite merged_cap in Hpc.
  rewrite (parseChunk_spec _ _) in Hpc.
  inversion Hpc as [[Ha Hd]].
  exists chunk. repeat (split; [assumption|]). exact Hd.
Qed.

(** X8.  Every record that [parseDiff] returns has a non-empty path that
    none of the exclude patterns in effect matches, and when a limit is in
    effect (the number given as [maxLinesPerFile], 50 when the option is
    left out) it holds no more additions and no more deletions than the
    limit.  No limit is in effect when the option is given as [undefined]. *)
Theorem parse_records_are_named_and_capped :
  forall (diff : string) (options : DiffParseOptions) (d : ParsedDiff),
    In d (parseDiff minimatch diff options) ->
    filePath d <> EmptyString /\
    (forall pattern, In pattern (effectivePatterns options) ->
       minimatch (filePath d) pattern = false) /\
    (forall n, effectiveCap options = Some n ->
       List.length (additions d) <= n /\ List.length (deletions d) <= n).
Proof.
  intros diff options d Hin.
  destruct (parseDiff_record diff options d Hin) as (chunk & _ & _ & Ht & Hx & Ha & Hd).
  split; [intro E; rewrite E in Ht; discriminate|].
  split.
  - intros pattern Hp.
    destruct (minimatch (filePath d) pattern) eqn:E; [|reflexivity].
    assert (Hex : existsb (fun pattern => minimatch (filePath d) pattern)
                    (effectivePatterns options) = true)
      by (apply existsb_exists; exists pattern; auto).
    congruence.
  - intros n Hn. rewrite Ha, Hd, Hn. cbn [capped].
    split; rewrite length_firstn; lia.
Qed.

Lemma trimStart_first : forall s, edgeIsSpace (firstChar (trimStart s)) = false.
Proof.
  induction s as [|c s IH]; cbn [trimStart]; [reflexivity|].
  destruct (isSpace c) eqn:E; [exact IH|]. cbn. exact E.
Qed.

Lemma trimEnd_first : forall s,
  edgeIsSpace (firstChar s) = false -> edgeIsSpace (firstChar (trimEnd s)) = false.
Proof.
  intros [|c s] H; [reflexivity|]. cbn in H. cbn [trimEnd].
  destruct (trimEnd s); [rewrite H|]; cbn; auto.
Qed.

Lemma trimEnd_last : forall s, edgeIsSpace (lastChar (trimEnd s)) = false.
Proof.
  induction s as [|c s IH]; [reflexivity|].
  cbn [trimEnd]. destruct (trimEnd s) as [|d t] eqn:E.
  - destruct (isSpace c) eqn:Ec; cbn; auto.
  - cbn [lastChar]. cbn [lastChar] in IH.
    destruct (lastChar t) as [l|]; cbn in *; auto.
Qed.

Lemma trim_edges : forall s,
  edgeIsSpace (firstChar (trim s)) = false /\ edgeIsSpace (lastChar (trim s)) = false.
Proof.
  intros s. unfold trim. split.
  - apply trimEnd_first, trimStart_first.
  - apply trimEnd_last.
Qed.

Lemma capped_stored_In : forall cap (keep : string -> bool) lines l,
  In l (capped cap (map storedLine (filter keep lines))) ->
  exists line, In line lines /\ keep line = true /\ l = sanitizeLine (slice1 line).
Proof.
  intros cap keep lines l H. apply capped_In in H.
  apply in_map_iff in H. destruct H as (line & <- & Hf).
  apply filter_In in Hf. exists line. split; [tauto|]. split; [tauto | reflexivity].
Qed.

(** X9.  Every record that [parseDiff] returns comes from one chunk of the
    text, cut at the marker [diff --git]: its path is the one of the first
    line of the chunk, and its additions and deletions are the stored forms
    of the added and of the deleted lines of that chunk, in their order, up
    to the limit in effect.  So every line of the record is the sanitized
    form of a line of that chunk without its first character, and it has no
    white space at its beginning or at its end. *)
Theorem parse_lines_are_sanitized_and_trimmed :
  forall (diff : string) (options : DiffParseOptions) (d : ParsedDiff),
    In d (parseDiff minimatch diff options) ->
    exists chunk,
      In chunk (split diff "diff --git") /\
      filePath d = extractPath chunk /\
      additions d
      = capped (effectiveCap options)
          (map storedLine (filter isAdditionLine (split chunk nl))) /\
      deletions d
      = capped (effectiveCap options)
          (map storedLine (filter isDeletionLine (split chunk nl))) /\
      (forall l, In l (additions d) ->
         exists line, In line (split chunk nl) /\ isAdditionLine line = true /\
                      l = sanitizeLine (slice1 line)) /\
      (forall l, In l (deletions d) ->
         exists line, In line (split chunk nl) /\ isDeletionLine line = true /\
                      l = sanitizeLine (slice1 line)) /\
      (forall l, In l (additions d ++ deletions d) ->
         edgeIsSpace (firstChar l) = false /\ edgeIsSpace (lastChar l) = false).
Proof.
  intros diff options d Hin.
  destruct (parseDiff_record diff options d Hin) as (chunk & Hc & Hp & _ & _ & Ha & Hd).
  exists chunk.
  split; [exact Hc|]. split; [exact Hp|]. split; [exact Ha|]. split; [exact Hd|].
  assert (HA : forall l, In l (additions d) ->
                 exists line, In line (split chunk nl) /\ isAdditionLine line = true /\
                              l = sanitizeLine (slice1 line)).
  { intros l Hl. rewrite Ha in Hl. exact (capped_stored_In _ _ _ _ Hl). }
  assert (HD : forall l, In l (deletions d) ->
                 exists line, In line (split chunk nl) /\ isDeletionLine line = true /\
                              l = sanitizeLine (slice1 line)).
  { intros l Hl. rewrite Hd in Hl. exact (capped_stored_In _ _ _ _ Hl). }
  split; [exact HA|]. split; [exact HD|].
  intros l Hl. apply in_app_or in Hl.
  destruct Hl as [Hl | Hl]; [destruct (HA l Hl) as (line & _ & _ & ->)
                            | destruct (HD l Hl) as (line & _ & _ & ->)];
    unfold sanitizeLine; apply trim_edges.
Qed.

End MoreParserFacts.

(** The star of a pattern stays within a path segment and does not match
    a segment that starts with a dot. *)
Lemma simpleGlob_segments :
  DiffParser.simpleGlob "debug.log" "*.log" = true /\
  DiffParser.simpleGlob "src/debug.log" "*.log" = false /\
  DiffParser.simpleGlob ".debug.log" "*.log" = false /\
  DiffParser.simpleGlob "src/.debug.log" "src/*.log" = false /\
  DiffParser.simpleGlob "src/debug.log" "src/*.log" = true /\
  DiffParser.simpleGlob "yarn.lock" "yarn.lock" = true.
Proof.
  repeat split; reflexivity.
Qed.

(** With the option given as [undefined] all sixty added lines of a file
    are kept; with the option left out, fifty. *)
Lemma parse_undefined_cap_keeps_all_lines :
  map (fun d => List.length (DiffParser.additions d))
      (DiffParser.parseDiff DiffParser.simpleGlob MoreNotions.sixtyLineDiff
         MoreNotions.undefinedCap) = [60] /\
  map (fun d => List.length (DiffParser.additions d))
      (DiffParser.parseDiff DiffParser.simpleGlob MoreNotions.sixtyLineDiff
         DiffParser.noOptions) = [50].
Proof.
  split; vm_compute; reflexivity.
Qed.

Lemma parse_records_are_named_and_capped_witness :
  In ParserNotions.readmeRecord
     (DiffParser.parseDiff DiffParser.simpleGlob ParserNotions.twoFileDiff
        DiffParser.noOptions) /\
  MoreNotions.effectiveCap DiffParser.noOptions = Some 50 /\
  List.length (DiffParser.additions ParserNotions.readmeRecord) <= 50 /\
  DiffParser.simpleGlob (DiffParser.filePath ParserNotions.readmeRecord) "*.log" = false.
Proof.
  assert (H : In ParserNotions.readmeRecord
                (DiffParser.parseDiff DiffParser.simpleGlob ParserNotions.twoFileDiff
                   DiffParser.noOptions)).
  { vm_compute. right. left. reflexivity. }
  assert (Hc : MoreNotions.effectiveCap DiffParser.noOptions = Some 50) by reflexivity.
  assert (Hp : In "*.log" (MoreNotions.effectivePatterns DiffParser.noOptions)).
  { right. right. left. reflexivity. }
  pose proof (parse_records_are_named_and_capped DiffParser.simpleGlob
                ParserNotions.twoFileDiff DiffParser.noOptions ParserNotions.readmeRecord H)
    as (_ & Hx & Hn).
  split; [exact H|]. split; [exact Hc|].
  split; [exact (proj1 (Hn 50 Hc)) | exact (Hx "*.log" Hp)].
Defined.

Lemma parse_lines_are_sanitized_and_trimmed_witness :
  In ParserNotions.readmeRecord
     (DiffParser.parseDiff DiffParser.simpleGlob ParserNotions.twoFileDiff
        DiffParser.noOptions) /\
  exists chunk,
    In chunk (JsString.split ParserNotions.twoFileDiff "diff --git") /\
    DiffParser.filePath ParserNotions.readmeRecord = DiffParser.extractPath chunk /\
    DiffParser.additions ParserNotions.readmeRecord
    = MoreNotions.capped (Some 50)
        (map MoreNotions.storedLine
           (filter MoreNotions.isAdditionLine (JsString.split chunk ParserNotions.nl))).
Proof.
  assert (H : In ParserNotions.readmeRecord
                (DiffParser.parseDiff DiffParser.simpleGlob ParserNotions.twoFileDiff
                   DiffParser.noOptions)).
  { vm_compute. right. left. reflexivity. }
  split; [exact H|].
  destruct (parse_lines_are_sanitized_and_trimmed DiffParser.simpleGlob
              ParserNotions.twoFileDiff DiffParser.noOptions ParserNotions.readmeRecord H)
    as (chunk & Hc & Hp & Ha & _).
  exists chunk. split; [exact Hc|]. split; [exact Hp | exact Ha].
Defined.

(* ------------------------------------------------------------------ *)
(** ** Sanitizing and the cache key *)
(* ------------------------------------------------------------------ *)

Section MoreTemplateFacts.
Import JsString Regex DiffParser LLMTypes PromptTemplates ParserNotions MoreNotions.

Lemma starLoop_takes_all : forall (R : Type) p s fuel c (k : string -> captures -> option R) x,
  allChars p s = true ->
  String.length s < fuel ->
  k EmptyString c = Some x ->
  starLoop (rmatch (Chr p)) k fuel s c = Some x.
Proof.
  induction s as [|a s IH]; intros fuel c k x Hall Hfuel Hk.
  - destruct fuel as [|f]; [inversion Hfuel|]. cbn. exact Hk.
  - destruct fuel as [|f]; [inversion Hfuel|].
    cbn [allChars] in Hall. apply andb_true_iff in Hall. destruct Hall as [Ha Hs].
    cbn [starLoop]. rewrite rmatch_Chr_cons, Ha.
    assert (E : Nat.ltb (String.length s) (String.length (String a s)) = true)
      by (apply Nat.ltb_lt; cbn; lia).
    rewrite E. rewrite (IH f c k x Hs); [reflexivity | cbn in Hfuel; lia | exact Hk].
Qed.

Lemma rmatch_AtLeast_takes_all :
  forall (R : Type) p n s c (k : string -> captures -> option R) x,
    allChars p s = true ->
    n <= String.length s ->
    k EmptyString c = Some x ->
    rmatch (AtLeast n (Chr p)) s c k = Some x.
Proof.
  induction n as [|n IH]; intros s c k x Hall Hlen Hk.
  - cbn [AtLeast]. rewrite rmatch_Star. apply starLoop_takes_all; auto.
  - destruct s as [|a s]; [inversion Hlen|].
    cbn [allChars] in Hall. apply andb_true_iff in Hall. destruct Hall as [Ha Hs].
    cbn [AtLeast]. rewrite rmatch_Seq, rmatch_Chr_cons, Ha.
    apply IH; auto. cbn in Hlen. lia.
Qed.

Lemma alnum_not_quote : forall a, isAlnum a = true -> isQuote a = false.
Proof.
  intros [[] [] [] [] [] [] [] []]; vm_compute; congruence.
Qed.

Lemma execAt_reToken_token : forall tok,
  allChars isAlnum tok = true ->
  32 <= String.length tok ->
  execAt reToken tok = Some (EmptyString, []).
Proof.
  intros tok Hall Hlen. unfold execAt, reToken.
  destruct tok as [|a tok]; [inversion Hlen|].
  pose proof Hall as Hall'.
  cbn [allChars] in Hall'. apply andb_true_iff in Hall'. destruct Hall' as [Ha _].
  cbn [rmatch]. rewrite (alnum_not_quote a Ha).
  apply rmatch_AtLeast_takes_all; auto.
Qed.

Lemma replaceAllAux_skips : forall r repl s,
  replaceAllAux r repl s (String.length s) = replaceAllAux r repl EmptyString 0.
Proof.
  induction s as [|a s IH]; [reflexivity|]. cbn [String.length replaceAllAux]. exact IH.
Qed.

Lemma replaceAll_reToken_token : forall tok,
  allChars isAlnum tok = true ->
  32 <= String.length tok ->
  replaceAll reToken (fun _ => "[REDACTED]") tok = "[REDACTED]".
Proof.
  intros tok Hall Hlen. unfold replaceAll.
  destruct tok as [|a tok]; [inversion Hlen|].
  cbn [replaceAllAux]. rewrite (execAt_reToken_token (String a tok) Hall Hlen).
  cbn [String.length Nat.sub]. rewrite replaceAllAux_skips. reflexivity.
Qed.

(** X10.  A line that consists of 32 or more letters and digits, as a key
    or a hash does, is stored as the marker [[REDACTED]]: nothing of the
    token reaches the records. *)
Theorem sanitizeLine_redacts_token :
  forall tok : string,
    allChars isAlnum tok = true ->
    32 <= String.length tok ->
    sanitizeLine tok = "[REDACTED]".
Proof.
  intros tok Hall Hlen. unfold sanitizeLine.
  rewrite (replaceAll_reToken_token tok Hall Hlen). reflexivity.
Qed.

Lemma sanitizeLine_redacts_token_witness :
  allChars isAlnum sampleToken = true /\
  32 <= String.length sampleToken /\
  sanitizeLine sampleToken = "[REDACTED]".
Proof.
  assert (Ha : allChars isAlnum sampleToken = true) by reflexivity.
  assert (Hl : 32 <= String.length sampleToken) by (apply Nat.leb_le; reflexivity).
  split; [exact Ha|]. split; [exact Hl|].
  exact (sanitizeLine_redacts_token sampleToken Ha Hl).
Defined.

(** *** The order of the sort *)

Lemma code_inj : forall a b, code a = code b -> a = b.
Proof.
  intros a b H. unfold code in H.
  rewrite <- (ascii_nat_embedding a), <- (ascii_nat_embedding b). now rewrite H.
Qed.

Lemma leb_cons : forall a s b t,
  JsString.leb (String a s) (String b t) =
  if Nat.ltb (code a) (code b) then true
  else if Nat.ltb (code b) (code a) then false
  else JsString.leb s t.
Proof.
  reflexivity.
Qed.

Lemma leb_total : forall s t, JsString.leb s t = false -> JsString.leb t s = true.
Proof.
  induction s as [|a s IH]; intros [|b t] H; try reflexivity; try discriminate H.
  rewrite leb_cons in *.
  destruct (Nat.ltb (code a) (code b)) eqn:E1; [discriminate|].
  destruct (Nat.ltb (code b) (code a)) eqn:E2; [reflexivity|].
  now apply IH.
Qed.

Lemma leb_antisym : forall s t,
  JsString.leb s t = true -> JsString.leb t s = true -> s = t.
Proof.
  induction s as [|a s IH]; intros [|b t] H1 H2; try reflexivity;
    try discriminate H1; try discriminate H2.
  rewrite leb_cons in *.
  destruct (Nat.ltb (code a) (code b)) eqn:E1;
    destruct (Nat.ltb (code b) (code a)) eqn:E2; try discriminate.
  - apply Nat.ltb_lt in E1, E2. lia.
  - apply Nat.ltb_ge in E1, E2.
    assert (a = b) by (apply code_inj; lia). subst b.
    f_equal. now apply IH.
Qed.

Lemma leb_trans : forall s t u,
  JsString.leb s t = true -> JsString.leb t u = true -> JsString.leb s u = true.
Proof.
  induction s as [|a s IH]; intros [|b t] [|c u] H1 H2; try reflexivity;
    try discriminate H1; try discriminate H2.
  rewrite leb_cons in *.
  destruct (Nat.ltb (code a) (code b)) eqn:E1;
    destruct (Nat.ltb (code b) (code a)) eqn:E1'; try discriminate;
    destruct (Nat.ltb (code b) (code c)) eqn:E2;
    destruct (Nat.ltb (code c) (code b)) eqn:E2'; try discriminate;
    destruct (Nat.ltb (code a) (code c)) eqn:E3; try reflexivity;
    destruct (Nat.ltb (code c) (code a)) eqn:E3';
    repeat match goal with
           | H : Nat.ltb _ _ = true |- _ => apply Nat.ltb_lt in H
           | H : Nat.ltb _ _ = false |- _ => apply Nat.ltb_ge in H
           end; try lia.
  eapply IH; eauto.
Qed.

Lemma insertSorted_sorted : forall x l,
  StronglySorted lebP l -> StronglySorted lebP (insertSorted x l).
Proof.
  induction l as [|y l IH]; intros Hs; cbn [insertSorted].
  - constructor; constructor.
  - inversion Hs as [|? ? Hl Hy]; subst.
    destruct (JsString.leb x y) eqn:E.
    + constructor; [exact Hs|]. constructor; [exact E|].
      rewrite Forall_forall in *. intros z Hz. eapply leb_trans; [exact E|]. now apply Hy.
    + constructor; [now apply IH|].
      assert (Hperm : Permutation (x :: l) (insertSorted x l))
        by apply insertSorted_Permutation.
      rewrite Forall_forall in *. intros z Hz.
      apply (Permutation_in _ (Permutation_sym Hperm)) in Hz.
      destruct Hz as [<- | Hz]; [now apply leb_total | now apply Hy].
Qed.

Lemma sorted_sorted : forall l, StronglySorted lebP (sorted l).
Proof.
  induction l as [|x l IH]; cbn [sorted]; [constructor|].
  now apply insertSorted_sorted.
Qed.

Lemma sorted_unique : forall l1 l2,
  StronglySorted lebP l1 -> StronglySorted lebP l2 -> Permutation l1 l2 -> l1 = l2.
Proof.
  induction l1 as [|x l1 IH]; intros l2 H1 H2 Hp.
  - apply Permutation_nil in Hp. now subst.
  - destruct l2 as [|y l2]; [apply Permutation_sym, Permutation_nil in Hp; discriminate|].
    inversion H1 as [|? ? Hs1 Hx]; inversion H2 as [|? ? Hs2 Hy]; subst.
    rewrite Forall_forall in Hx, Hy.
    assert (Exy : x = y).
    { assert (Hin1 : In x (y :: l2)) by (eapply Permutation_in; [exact Hp | now left]).
      assert (Hin2 : In y (x :: l1))
        by (eapply Permutation_in; [apply Permutation_sym; exact Hp | now left]).
      destruct Hin1 as [-> | Hin1]; [reflexivity|].
      destruct Hin2 as [-> | Hin2]; [reflexivity|].
      apply leb_antisym; [now apply Hx | now apply Hy]. }
    subst y. f_equal. apply IH; auto. eapply Permutation_cons_inv; eauto.
Qed.

(** X11.  The cache key does not depend on the order in which the file
    paths are given: two lists with the same paths, in any order, give the
    same key for the same diff text. *)
Theorem generateCacheKey_ignores_file_order :
  forall (files1 files2 : list string) (diff : string),
    Permutation files1 files2 ->
    fst (generateCacheKey files1 diff) = fst (generateCacheKey files2 diff).
Proof.
  intros files1 files2 diff Hp. unfold generateCacheKey. cbn [sortFiles fst].
  assert (E : sorted files1 = sorted files2).
  { apply sorted_unique; try apply sorted_sorted.
    eapply perm_trans; [apply Permutation_sym, sorted_Permutation|].
    eapply perm_trans; [exact Hp | apply sorted_Permutation]. }
  now rewrite E.
Qed.

Lemma generateCacheKey_ignores_file_order_witness :
  Permutation ["b.ts"; "a.ts"] ["a.ts"; "b.ts"] /\
  fst (generateCacheKey ["b.ts"; "a.ts"] "x") = fst (generateCacheKey ["a.ts"; "b.ts"] "x").
Proof.
  assert (H : Permutation ["b.ts"; "a.ts"] ["a.ts"; "b.ts"]) by apply perm_swap.
  split; [exact H|].
  exact (generateCacheKey_ignores_file_order ["b.ts"; "a.ts"] ["a.ts"; "b.ts"] "x" H).
Defined.

Lemma slice0_append : forall n s t,
  n <= String.length s -> slice0 n (s ++ t) = slice0 n s.
Proof.
  induction n as [|n IH]; intros s t H.
  - destruct s; reflexivity.
  - destruct s as [|c s]; [inversion H|]. cbn [append slice0].
    f_equal. apply IH. cbn in H. lia.
Qed.

(** X12.  Only the first 100 characters of the diff text enter the cache
    key: two texts that agree on them give the same key for the same files,
    whatever follows. *)
Theorem generateCacheKey_reads_first_100_characters :
  forall (files : list string) (diff rest1 rest2 : string),
    100 <= String.length diff ->
    generateCacheKey files (diff ++ rest1) = generateCacheKey files (diff ++ rest2).
Proof.
  intros files diff rest1 rest2 H. unfold generateCacheKey.
  now rewrite !slice0_append by exact H.
Qed.

Lemma generateCacheKey_reads_first_100_characters_witness :
  100 <= String.length (spaces 7) /\
  generateCacheKey ["a.ts"] (spaces 7 ++ "+one") = generateCacheKey ["a.ts"] (spaces 7 ++ "-two").
Proof.
  assert (H : 100 <= String.length (spaces 7)) by (apply Nat.leb_le; reflexivity).
  split; [exact H|].
  exact (generateCacheKey_reads_first_100_characters ["a.ts"] (spaces 7) "+one" "-two" H).
Defined.

End MoreTemplateFacts.

(* ------------------------------------------------------------------ *)
(** ** Commit analyzer: model calls, batches and consolidation *)
(* ------------------------------------------------------------------ *)

Section MoreAnalyzerFacts.
Import JsString Errors Promises DiffParser LLMTypes PromptTemplates CommitAnalyzer.
Import ParserNotions Scenarios MoreNotions.

Variable minimatch : string -> string -> bool.
Variable inferChangeType : list string -> ChangeType.

Lemma withRetriesFrom_ext : forall (A : Type) (fn g : nat -> Settle A) left attempt,
  (forall a, attempt <= a <= attempt + left -> fn a = g a) ->
  withRetriesFrom left fn attempt = withRetriesFrom left g attempt.
Proof.
  induction left as [|left IH]; intros attempt H; cbn [withRetriesFrom].
  - rewrite (H attempt) by lia. reflexivity.
  - rewrite (H attempt) by lia.
    destruct (g attempt) as [|t [a|e]]; try reflexivity.
    f_equal. apply IH. intros a Ha. apply H. lia.
Qed.

(** X13.  [withRetries] calls its function at most [maxRetries] times, and
    once when [maxRetries] is below one: the result does not depend on what
    a later call would give, and a first call that fulfils is the result,
    with no second call. *)
Theorem withRetries_makes_at_most_maxRetries_attempts :
  forall (A : Type) (fn g : nat -> Settle A) (maxRetries : nat),
    (forall a, 1 <= a <= Nat.max 1 maxRetries -> fn a = g a) ->
    withRetries fn maxRetries 1 = withRetries g maxRetries 1 /\
    (forall t v, fn 1 = At t (Ok v) -> withRetries fn maxRetries 1 = At t (Ok v)).
Proof.
  intros A fn g maxRetries H. split.
  - unfold withRetries. apply withRetriesFrom_ext. intros a Ha. apply H. lia.
  - intros t v H1. unfold withRetries.
    destruct (maxRetries - 1); cbn [withRetriesFrom]; now rewrite H1.
Qed.

Lemma withRetries_makes_at_most_maxRetries_attempts_witness :
  (forall a, 1 <= a <= Nat.max 1 MAX_RETRIES ->
     failing timerError a = failingTwice timerError CacheStates.r0 a) /\
  withRetries (failing timerError) MAX_RETRIES 1
  = withRetries (failingTwice timerError CacheStates.r0) MAX_RETRIES 1.
Proof.
  assert (H : forall a, 1 <= a <= Nat.max 1 MAX_RETRIES ->
                failing timerError a = failingTwice timerError CacheStates.r0 a).
  { intros a Ha. change (Nat.max 1 MAX_RETRIES) with 2 in Ha.
    destruct a as [|[|[|a]]]; try reflexivity. lia. }
  split; [exact H|].
  exact (proj1 (withRetries_makes_at_most_maxRetries_attempts LLMResponse
                  (failing timerError) (failingTwice timerError CacheStates.r0)
                  MAX_RETRIES H)).
Defined.

Lemma changeTypeOfName_sound : forall s t,
  changeTypeOfName s = Some t -> changeTypeName t = s.
Proof.
  intros s t H. unfold changeTypeOfName in H.
  apply find_some in H. destruct H as [_ H]. now apply String.eqb_eq in H.
Qed.

Lemma truthy_nonempty : forall s, truthy s = true -> s <> EmptyString.
Proof.
  intros [|c s] H; [discriminate | discriminate].
Qed.

Lemma validateLLMResponse_cases : forall reply,
  (exists r o, validateLLMResponse reply = Ok r /\ reply = Object o /\
     reply_type o = Some (changeTypeName (type r)) /\
     reply_commitMessage o = Some (commitMessage r) /\
     commitMessage r <> EmptyString /\
     scope r = reply_scope o /\ breaking r = reply_breaking o /\
     details r = reply_details o) \/
  (exists e, validateLLMResponse reply = Err e /\ errClass e = InvalidResponseErrorC).
Proof.
  intros [| | o]; cbn [validateLLMResponse]; try (right; eexists; split; reflexivity).
  destruct (reply_type o) as [ty|] eqn:Et; cbn [optTruthy negb orb];
    [|right; eexists; split; reflexivity].
  destruct (truthy ty) eqn:Ety; cbn [negb orb];
    [|right; eexists; split; reflexivity].
  destruct (reply_commitMessage o) as [msg|] eqn:Em; cbn [optTruthy negb];
    [|right; eexists; split; reflexivity].
  destruct (truthy msg) eqn:Emsg; cbn [negb];
    [|right; eexists; split; reflexivity].
  destruct (changeTypeOfName ty) as [t|] eqn:Ec;
    [|right; eexists; split; reflexivity].
  left. eexists. exists o. split; [reflexivity|]. cbn.
  rewrite (changeTypeOfName_sound _ _ Ec).
  repeat split; auto. now apply truthy_nonempty.
Qed.

(** X14.  When the provider resolves, whatever its text, [getLLMResponse]
    either fulfils with a validated response, whose type is the member of
    the enumeration that the reply names, whose commit message is the
    non-empty message of the reply and whose other fields are those of the
    reply, or it rejects with an [InvalidResponseError]; it settles at the
    moment the provider does. *)
Theorem getLLMResponse_validates_resolved_reply :
  forall (w : World) (site : CallSite) (attempt t : nat) (reply : AiReply),
    aiProvider w site attempt = At t (Ok reply) ->
    (exists r o, getLLMResponse w site attempt = At t (Ok r) /\ reply = Object o /\
       reply_type o = Some (changeTypeName (type r)) /\
       reply_commitMessage o = Some (commitMessage r) /\
       commitMessage r <> EmptyString /\
       scope r = reply_scope o /\ breaking r = reply_breaking o /\
       details r = reply_details o) \/
    (exists e, getLLMResponse w site attempt = At t (Err e) /\
               errClass e = InvalidResponseErrorC).
Proof.
  intros w site attempt t reply H. unfold getLLMResponse. rewrite H.
  destruct reply as [| | o].
  - right. eexists. split; reflexivity.
  - right. eexists. split; reflexivity.
  - destruct (validateLLMResponse_cases (Object o))
      as [(r & o' & Hv & Ho & Hrest) | (e & Hv & He)]; rewrite Hv.
    + left. exists r, o'. split; [reflexivity|]. split; [exact Ho | exact Hrest].
    + right. exists (classifyLLMError e). split; [reflexivity|].
      unfold classifyLLMError, instanceOf. rewrite He. cbn. exact He.
Qed.

Lemma getLLMResponse_validates_resolved_reply_witness :
  aiProvider promptWorld FinalCall 1 = At 10 (Ok featReply) /\
  ((exists r o, getLLMResponse promptWorld FinalCall 1 = At 10 (Ok r) /\
      featReply = Object o /\
      reply_type o = Some (changeTypeName (type r)) /\
      reply_commitMessage o = Some (commitMessage r) /\
      commitMessage r <> EmptyString /\
      scope r = reply_scope o /\ breaking r = reply_breaking o /\
      details r = reply_details o) \/
   (exists e, getLLMResponse promptWorld FinalCall 1 = At 10 (Err e) /\
              errClass e = InvalidResponseErrorC)).
Proof.
  assert (H : aiProvider promptWorld FinalCall 1 = At 10 (Ok featReply)) by reflexivity.
  split; [exact H|].
  exact (getLLMResponse_validates_resolved_reply promptWorld FinalCall 1 10 featReply H).
Defined.

(** *** [Promise.all] *)

Lemma firstRejection_spec : forall (A : Type) (ps : list (Settle A)) best,
  match firstRejection ps best with
  | None => best = None /\ forall t e, ~ In (At t (Err e)) ps
  | Some (t, e) =>
      (best = Some (t, e) \/ In (At t (Err e)) ps) /\
      (forall tb eb, best = Some (tb, eb) -> t <= tb) /\
      (forall t' e', In (At t' (Err e')) ps -> t <= t')
  end.
Proof.
  induction ps as [|p ps IH]; intros best.
  - cbn. destruct best as [[t e]|].
    + split; [now left|]. split; [intros tb eb [= <- <-]; lia | intros t' e' []].
    + split; [reflexivity | intros t e []].
  - cbn [firstRejection].
    assert (Hskip : forall q, (forall t e, q <> At t (Err e)) ->
      match firstRejection ps best with
      | None => best = None /\ forall t e, ~ In (At t (Err e)) (q :: ps)
      | Some (t, e) =>
        (best = Some (t, e) \/ In (At t (Err e)) (q :: ps)) /\
        (forall tb eb, best = Some (tb, eb) -> t <= tb) /\
        (forall t' e', In (At t' (Err e')) (q :: ps) -> t <= t')
      end).
    { intros q Hq. specialize (IH best).
      destruct (firstRejection ps best) as [[t0 e0]|].
      - destruct IH as (H1 & H2 & H3). split; [|split; auto].
        + destruct H1; [now left | right; now right].
        + intros t' e' [Hd | Hin]; [now apply Hq in Hd | eauto].
      - destruct IH as (H1 & H2). split; auto.
        intros t e [Hd | Hin]; [now apply Hq in Hd | eapply H2; eauto]. }
    assert (Htake : forall t e best',
      (forall tb eb, best' = Some (tb, eb) -> best' = Some (t, e) \/ (best = Some (tb, eb) /\ tb <= t)) ->
      (best' = Some (t, e) \/ best' = best) -> best' <> None ->
      (forall tb eb, best = Some (tb, eb) -> forall tb' eb', best' = Some (tb', eb') -> tb' <= tb) ->
      match firstRejection ps best' with
      | None => best = None /\ forall t1 e1, ~ In (At t1 (Err e1)) (At t (Err e) :: ps)
      | Some (t1, e1) =>
        (best = Some (t1, e1) \/ In (At t1 (Err e1)) (At t (Err e) :: ps)) /\
        (forall tb eb, best = Some (tb, eb) -> t1 <= tb) /\
        (forall t' e', In (At t' (Err e')) (At t (Err e) :: ps) -> t1 <= t')
      end).
    { intros t e best' Hb Hor Hnn Hle. specialize (IH best').
      destruct (firstRejection ps best') as [[t1 e1]|].
      - destruct IH as (H1 & H2 & H3). split; [|split].
        + destruct H1 as [H1 | H1]; [|right; now right].
          destruct Hor as [Hor | Hor].
          * rewrite Hor in H1. injection H1 as <- <-. right. now left.
          * left. congruence.
        + intros tb eb Hbest. destruct best' as [[tb' eb']|]; [|congruence].
          specialize (H2 _ _ eq_refl). specialize (Hle _ _ Hbest _ _ eq_refl). lia.
        + intros t' e' [Hd | Hin]; [|eauto].
          injection Hd as <- <-.
          destruct best' as [[tb' eb']|]; [|congruence].
          specialize (H2 _ _ eq_refl).
          destruct (Hb _ _ eq_refl) as [Hx | [Hx Hy]].
          -- injection Hx as <- <-. exact H2.
          -- lia.
      - destruct IH as [Hd _]. contradiction. }
    destruct p as [|t [a|e]].
    + apply Hskip. intros; discriminate.
    + apply Hskip. intros; discriminate.
    + destruct best as [[tb eb]|].
      * destruct (Nat.ltb t tb) eqn:E.
        -- apply Nat.ltb_lt in E. apply Htake.
           ++ intros tb' eb' [= <- <-]. now left.
           ++ now left.
           ++ discriminate.
           ++ intros tb0 eb0 [= <- <-] tb' eb' [= <- <-]. lia.
        -- apply Nat.ltb_ge in E. apply Htake.
           ++ intros tb' eb' [= <- <-]. right. split; [reflexivity | exact E].
           ++ now right.
           ++ discriminate.
           ++ intros tb0 eb0 [= <- <-] tb' eb' [= <- <-]. lia.
      * apply Htake.
        -- intros tb' eb' [= <- <-]. now left.
        -- now left.
        -- discriminate.
        -- intros tb0 eb0 Hd. discriminate.
Qed.

Lemma allFulfilled_spec : forall (A : Type) (ps : list (Settle A)) t l,
  allFulfilled ps = Some (t, l) ->
  Forall2 (fun p a => exists t', p = At t' (Ok a) /\ t' <= t) ps l.
Proof.
  induction ps as [|p ps IH]; intros t l H.
  - cbn in H. injection H as <- <-. constructor.
  - cbn [allFulfilled] in H. destruct p as [|t0 [a|e]]; try discriminate.
    destruct (allFulfilled ps) as [[t1 l1]|] eqn:E; [|discriminate].
    injection H as <- <-. constructor.
    + exists t0. split; [reflexivity | lia].
    + specialize (IH t1 l1 eq_refl).
      eapply Forall2_impl; [|exact IH].
      intros q b (t' & Hp & Ht). exists t'. split; [exact Hp | lia].
Qed.

Lemma allFulfilled_settled : forall (A : Type) (ps : list (Settle A)),
  (forall p, In p ps -> exists t a, p = At t (Ok a)) ->
  exists t l, allFulfilled ps = Some (t, l).
Proof.
  induction ps as [|p ps IH]; intros H.
  - eexists _, _. reflexivity.
  - destruct (H p (or_introl eq_refl)) as (t & a & ->).
    destruct IH as (t1 & l1 & E); [intros q Hq; apply H; now right|].
    cbn [allFulfilled]. rewrite E. eexists _, _. reflexivity.
Qed.

Lemma promiseAll_fulfilled : forall (A : Type) (ps : list (Settle A)) t l,
  promiseAll ps = At t (Ok l) ->
  Forall2 (fun p a => exists t', p = At t' (Ok a) /\ t' <= t) ps l.
Proof.
  intros A ps t l H. unfold promiseAll in H.
  destruct (firstRejection ps None) as [[t0 e0]|]; [discriminate|].
  destruct (allFulfilled ps) as [[t1 l1]|] eqn:E; [|discriminate].
  injection H as <- <-. now apply allFulfilled_spec.
Qed.

(** X15.  [Promise.all] on the promises of a batch: when it fulfils, every
    promise has fulfilled, not later than the batch, and the values are
    those of the promises in their order; when it rejects, it rejects with
    the rejection of one of the promises, at the time of the earliest
    rejection; and it rejects as soon as one promise does. *)
Theorem promiseAll_all_or_first_rejection :
  forall (A : Type) (ps : list (Settle A)),
    (forall t l, promiseAll ps = At t (Ok l) ->
       Forall2 (fun p a => exists t', p = At t' (Ok a) /\ t' <= t) ps l) /\
    (forall t e, promiseAll ps = At t (Err e) ->
       In (At t (Err e)) ps /\ forall t' e', In (At t' (Err e')) ps -> t <= t') /\
    (forall t' e', In (At t' (Err e')) ps ->
       exists t e, promiseAll ps = At t (Err e) /\ t <= t').
Proof.
  intros A ps. unfold promiseAll.
  pose proof (firstRejection_spec A ps None) as Hf.
  destruct (firstRejection ps None) as [[t0 e0]|].
  - destruct Hf as (H1 & _ & H3). repeat split.
    + intros t l Hd. discriminate.
    + injection H as <- <-. destruct H1 as [Hd | H1]; [discriminate | exact H1].
    + injection H as <- <-. exact H3.
    + intros t' e' Hin. exists t0, e0. split; [reflexivity | eauto].
  - destruct Hf as (_ & Hnone). repeat split.
    + intros t l H. destruct (allFulfilled ps) as [[t1 l1]|] eqn:E; [|discriminate].
      injection H as <- <-. now apply allFulfilled_spec.
    + destruct (allFulfilled ps) as [[t1 l1]|]; discriminate.
    + destruct (allFulfilled ps) as [[t1 l1]|]; discriminate.
    + intros t' e' Hin. exfalso. eapply Hnone; eauto.
Qed.


(** *** Which runs settle *)

Lemma withTimeout_settles : forall (A : Type) (p : Settle A) ms,
  exists t r, withTimeout p ms = At t r /\ t <= ms.
Proof.
  intros A [|t r] ms; unfold withTimeout.
  - eexists _, _. split; [reflexivity | lia].
  - destruct (Nat.leb t ms) eqn:E.
    + apply Nat.leb_le in E. eexists _, _. split; [reflexivity | lia].
    + eexists _, _. split; [reflexivity | lia].
Qed.

Lemma analyzeFile_settles : forall w item, exists t r, analyzeFile w item = At t r.
Proof.
  intros w item. unfold analyzeFile, callModel.
  destruct (withTimeout_settles LLMResponse
              (withRetries (getLLMResponse w (FileCall (fst item))) MAX_RETRIES 1) TIMEOUT_MS)
    as (t & r & -> & _).
  destruct r as [a|e]; cbn; eexists _, _; reflexivity.
Qed.

Lemma promiseAll_settles : forall (A : Type) (ps : list (Settle A)),
  (forall p, In p ps -> exists t r, p = At t r) ->
  exists t r, promiseAll ps = At t r.
Proof.
  intros A ps H. unfold promiseAll.
  pose proof (firstRejection_spec A ps None) as Hf.
  destruct (firstRejection ps None) as [[t0 e0]|]; [eexists _, _; reflexivity|].
  destruct Hf as [_ Hnone].
  destruct (allFulfilled_settled A ps) as (t & l & ->); [|eexists _, _; reflexivity].
  intros p Hin. destruct (H p Hin) as (t & [a|e] & ->); [eauto|].
  exfalso. eapply Hnone; eauto.
Qed.

Lemma processLoop_settles : forall fuel w diffs i results,
  exists t r, processLoop fuel w diffs i results = At t r.
Proof.
  induction fuel as [|fuel IH]; intros w diffs i results; cbn [processLoop].
  - destruct (Nat.ltb i (List.length diffs)); eexists _, _; reflexivity.
  - destruct (Nat.ltb i (List.length diffs)); [|eexists _, _; reflexivity].
    destruct (promiseAll_settles FileAnalysis
                (map (analyzeFile w) (sliceIndexed diffs i BATCH_SIZE)))
      as (t & r & ->).
    + intros p Hin. apply in_map_iff in Hin. destruct Hin as (item & <- & _).
      apply analyzeFile_settles.
    + destruct r as [batchResults|e]; cbn [andThen]; [|eexists _, _; reflexivity].
      destruct (IH w diffs (i + BATCH_SIZE) (results ++ batchResults)%list) as (t2 & r2 & ->).
      cbn. eexists _, _. reflexivity.
Qed.

Lemma generateCommitMessage_settles : forall w diffs,
  exists t r, generateCommitMessage w diffs = At t r.
Proof.
  intros w diffs. unfold generateCommitMessage, processDiffsConcurrently.
  destruct (processLoop_settles (List.length diffs) w diffs 0 []) as (t & r & ->).
  destruct r as [results|e]; cbn [andThen delay]; [|eexists _, _; reflexivity].
  unfold callModel.
  destruct (withTimeout_settles LLMResponse
              (withRetries (getLLMResponse w FinalCall) MAX_RETRIES 1) TIMEOUT_MS)
    as (t2 & r2 & -> & _).
  destruct r2 as [a|e]; cbn; eexists _, _; reflexivity.
Qed.

Lemma delay_settles : forall (A : Type) d (p : Settle A),
  (exists t r, p = At t r) -> exists t r, delay d p = At t r /\ d <= t.
Proof.
  intros A d p (t & r & ->). cbn. eexists _, _. split; [reflexivity | lia].
Qed.

(** The [catch] block settles when the second reading of the staged diff
    does. *)
Lemma recover_settles : forall w e,
  (exists t1 r1, gitDiff w 1 = At t1 r1) ->
  exists t r, recover minimatch inferChangeType w e = At t r.
Proof.
  intros w e (t1 & r1 & Hg). unfold recover.
  destruct (instanceOf e NoChangesErrorC); [eexists _, _; reflexivity|].
  destruct (instanceOf e LLMTimeoutErrorC || instanceOf e InvalidResponseErrorC).
  - rewrite Hg. destruct r1 as [text|e1]; cbn [getStagedDiff andThen].
    + unfold FALLBACK_COMMIT_TEMPLATE, joinFiles. cbn [delay]. eexists _, _. reflexivity.
    + eexists _, _. reflexivity.
  - destruct (instanceOf e GitErrorC); eexists _, _; reflexivity.
Qed.

(** X16.  Every model call of the orchestrator settles after 2000 ms at the
    latest, whatever the provider does, also when it never answers, and so
    the generation of the message always settles.  The two readings of the
    staged diff are awaited without a timer: a run stays pending when the
    first one does, and it settles, not before the first reading has, when
    both readings settle. *)
Theorem analyze_settles_when_git_does :
  forall (w : World) (c : CommitCache.CommitCache),
    (forall site, exists t r, callModel w site = At t r /\ t <= 2000) /\
    (forall diffs, exists t r, generateCommitMessage w diffs = At t r) /\
    (gitDiff w 0 = Never ->
       fst (analyzeCommit minimatch inferChangeType w c) = Never) /\
    (forall t0 r0, gitDiff w 0 = At t0 r0 ->
       (exists t1 r1, gitDiff w 1 = At t1 r1) ->
       exists t r, fst (analyzeCommit minimatch inferChangeType w c) = At t r /\ t0 <= t).
Proof.
  intros w c. split; [|split; [|split]].
  - intros site. unfold callModel. apply withTimeout_settles.
  - apply generateCommitMessage_settles.
  - intros H. unfold analyzeCommit. rewrite H. reflexivity.
  - intros t0 r0 H0 H1. unfold analyzeCommit. rewrite H0.
    destruct r0 as [text|e0]; cbn [getStagedDiff].
    + destruct (Nat.eqb (List.length (parseDiff minimatch text noOptions)) 0).
      * cbn [fst]. apply delay_settles, recover_settles, H1.
      * destruct (checkCommitCache w (parseDiff minimatch text noOptions) c)
          as [[cached|] c1]; [eexists _, _; split; [reflexivity | lia]|].
        destruct (generateCommitMessage_settles w (parseDiff minimatch text noOptions))
          as (t & r & ->).
        destruct r as [result|e]; cbn [fst].
        -- eexists _, _. split; [reflexivity | lia].
        -- destruct (delay_settles Outcome (t0 + t)
                       (recover minimatch inferChangeType w e) (recover_settles w e H1))
             as (t2 & r2 & -> & Hle).
           eexists _, _. split; [reflexivity | lia].
    + cbn [fst]. apply delay_settles, recover_settles, H1.
Qed.

(** *** The batches cover the files in order *)

Lemma andThen_Ok_inv : forall (A B : Type) (p : Settle A) (f : A -> Settle B) t b,
  andThen p f = At t (Ok b) ->
  exists t1 a t2, p = At t1 (Ok a) /\ f a = At t2 (Ok b).
Proof.
  intros A B [|t1 [a|e]] f t b H; cbn in H; try discriminate.
  destruct (f a) as [|t2 r] eqn:E; cbn in H; [discriminate|].
  injection H as _ ->. eauto.
Qed.

Lemma delay_Ok_inv : forall (A : Type) d (p : Settle A) t a,
  delay d p = At t (Ok a) -> exists t', p = At t' (Ok a).
Proof.
  intros A d [|t' r] t a H; cbn in H; [discriminate|].
  injection H as _ ->. eauto.
Qed.

Lemma analyzeFile_file : forall w item t fa,
  analyzeFile w item = At t (Ok fa) -> fa_file fa = filePath (snd item).
Proof.
  intros w item t fa H. unfold analyzeFile in H.
  apply andThen_Ok_inv in H. destruct H as (t1 & r & t2 & _ & H).
  injection H as _ <-. reflexivity.
Qed.

Lemma batch_files : forall w (batch : list (nat * ParsedDiff)) t results,
  Forall2 (fun p a => exists t', p = At t' (Ok a) /\ t' <= t)
          (map (analyzeFile w) batch) results ->
  map fa_file results = map (fun item => filePath (snd item)) batch.
Proof.
  induction batch as [|item batch IH]; intros t results H; inversion H; subst.
  - reflexivity.
  - cbn [map]. f_equal.
    + match goal with Hx : exists t', _ |- _ => destruct Hx as (t' & Hx & _) end.
      eapply analyzeFile_file; eauto.
    + eapply IH; eauto.
Qed.

Lemma map_snd_combine : forall (A B : Type) (l1 : list A) (l2 : list B),
  List.length l2 <= List.length l1 -> map snd (combine l1 l2) = l2.
Proof.
  induction l1 as [|x l1 IH]; intros [|y l2] H; cbn in *; try reflexivity; try lia.
  f_equal. apply IH. lia.
Qed.

Lemma sliceIndexed_diffs : forall diffs i n,
  map (fun item : nat * ParsedDiff => filePath (snd item)) (sliceIndexed diffs i n)
  = map filePath (firstn n (skipn i diffs)).
Proof.
  intros diffs i n. unfold sliceIndexed.
  rewrite <- (map_map snd filePath). f_equal. apply map_snd_combine.
  rewrite length_seq, length_firstn. lia.
Qed.

Lemma processLoop_files : forall fuel w diffs i results t rs,
  List.length diffs - i <= fuel ->
  processLoop fuel w diffs i results = At t (Ok rs) ->
  map fa_file rs = (map fa_file results ++ map filePath (skipn i diffs))%list.
Proof.
  induction fuel as [|fuel IH]; intros w diffs i results t rs Hfuel H;
    cbn [processLoop] in H.
  - assert (E : Nat.ltb i (List.length diffs) = false) by (apply Nat.ltb_ge; lia).
    rewrite E in H. injection H as _ <-.
    rewrite skipn_all2 by lia. cbn. now rewrite app_nil_r.
  - destruct (Nat.ltb i (List.length diffs)) eqn:E.
    + apply andThen_Ok_inv in H. destruct H as (t1 & batchResults & t2 & Hall & Hrest).
      apply delay_Ok_inv in Hrest. destruct Hrest as (t3 & Hrest).
      apply IH in Hrest; [|unfold BATCH_SIZE; lia].
      pose proof (promiseAll_fulfilled FileAnalysis
                    (map (analyzeFile w) (sliceIndexed diffs i BATCH_SIZE)) t1 batchResults Hall)
        as Hf.
      apply batch_files in Hf. rewrite sliceIndexed_diffs in Hf.
      rewrite Hrest, map_app, Hf, <- app_assoc. f_equal.
      rewrite <- map_app. f_equal.
      replace (i + BATCH_SIZE) with (BATCH_SIZE + i) by lia.
      rewrite <- skipn_skipn. apply firstn_skipn.
    + injection H as _ <-. apply Nat.ltb_ge in E.
      rewrite skipn_all2 by lia. cbn. now rewrite app_nil_r.
Qed.

(** X17.  When [processDiffsConcurrently] fulfils, the batches of three
    have covered every parsed diff once and in order: the file list of the
    analysis is the list of the paths of the diffs. *)
Theorem processDiffsConcurrently_covers_files_in_order :
  forall (w : World) (diffs : list ParsedDiff) (t : nat) (a : CommitAnalysis),
    processDiffsConcurrently w diffs = At t (Ok a) ->
    files a = map filePath diffs.
Proof.
  intros w diffs t a H. unfold processDiffsConcurrently in H.
  apply andThen_Ok_inv in H. destruct H as (t1 & results & t2 & Hloop & Hc).
  injection Hc as _ <-.
  apply processLoop_files in Hloop; [|lia].
  cbn in Hloop. unfold consolidateAnalysis. cbn [files]. exact Hloop.
Qed.

(** *** Consolidation *)

Lemma existsb_eqb_In : forall key seen,
  existsb (String.eqb key) seen = true <-> In key seen.
Proof.
  intros key seen. rewrite existsb_exists. split.
  - intros (x & Hin & E). apply String.eqb_eq in E. now subst.
  - intros H. exists key. split; [exact H | apply String.eqb_refl].
Qed.

Lemma existsb_eqb_not_In : forall key seen,
  existsb (String.eqb key) seen = false <-> ~ In key seen.
Proof.
  intros key seen. rewrite <- existsb_eqb_In.
  destruct (existsb (String.eqb key) seen); split; intros; congruence.
Qed.

Lemma groupChanges_cons : forall seen a l,
  groupChanges seen (a :: l) =
  if existsb (String.eqb (analysisKey a)) seen then groupChanges seen l
  else categoryOf a :: groupChanges (analysisKey a :: seen) l.
Proof.
  reflexivity.
Qed.

Lemma groupChanges_spec : forall l seen,
  (forall c, In c (groupChanges seen l) ->
     ~ In (categoryKey c) seen /\ exists a, In a l /\ c = categoryOf a) /\
  NoDup (map categoryKey (groupChanges seen l)) /\
  (forall a, In a l ->
     In (analysisKey a) seen \/ In (analysisKey a) (map categoryKey (groupChanges seen l))).
Proof.
  induction l as [|a l IH]; intros seen.
  - cbn. split; [intros c []|]. split; [constructor | intros a []].
  - rewrite groupChanges_cons.
    destruct (existsb (String.eqb (analysisKey a)) seen) eqn:E.
    + apply existsb_eqb_In in E. destruct (IH seen) as (H1 & H2 & H3).
      split; [|split; [exact H2|]].
      * intros c Hc. destruct (H1 c Hc) as (Hn & x & Hx & Hcx).
        split; [exact Hn|]. exists x. split; [now right | exact Hcx].
      * intros x [<- | Hx]; [now left | now apply H3].
    + apply existsb_eqb_not_In in E.
      destruct (IH (analysisKey a :: seen)) as (H1 & H2 & H3).
      split; [|split].
      * intros c [<- | Hc].
        -- split; [exact E|]. exists a. split; [now left | reflexivity].
        -- destruct (H1 c Hc) as (Hn & x & Hx & Hcx).
           split; [intro Hs; apply Hn; now right|].
           exists x. split; [now right | exact Hcx].
      * cbn [map]. constructor; [|exact H2].
        intros Hin. apply in_map_iff in Hin. destruct Hin as (c & Hk & Hc).
        destruct (H1 c Hc) as (Hn & _). apply Hn. left. now rewrite Hk.
      * intros x [<- | Hx].
        -- right. now left.
        -- destruct (H3 x Hx) as [[Hs | Hs] | Hs].
           ++ right. left. exact Hs.
           ++ now left.
           ++ right. now right.
Qed.

Lemma groupChanges_first_wins : forall pre a post seen,
  (forall x, In x pre -> analysisKey x <> analysisKey a) ->
  ~ In (analysisKey a) seen ->
  In (categoryOf a) (groupChanges seen (pre ++ a :: post)).
Proof.
  induction pre as [|x pre IH]; intros a post seen Hpre Hseen.
  - cbn [app]. rewrite groupChanges_cons.
    apply existsb_eqb_not_In in Hseen. rewrite Hseen. now left.
  - cbn [app]. rewrite groupChanges_cons.
    assert (Hx : analysisKey x <> analysisKey a) by (apply Hpre; now left).
    destruct (existsb (String.eqb (analysisKey x)) seen).
    + apply IH; auto. intros y Hy. apply Hpre. now right.
    + right. apply IH.
      * intros y Hy. apply Hpre. now right.
      * intros [Hs | Hs]; [congruence | contradiction].
Qed.

Lemma dedup_spec : forall xs seen,
  NoDup (dedup seen xs) /\
  (forall x, In x (dedup seen xs) <-> In x xs /\ ~ In x seen).
Proof.
  induction xs as [|y xs IH]; intros seen.
  - cbn. split; [constructor | intros x; tauto].
  - cbn [dedup]. destruct (existsb (String.eqb y) seen) eqn:E.
    + apply existsb_eqb_In in E. destruct (IH seen) as (H1 & H2).
      split; [exact H1|]. intros x. rewrite H2. cbn.
      split; [tauto|]. intros [[<- | Hx] Hn]; [contradiction | tauto].
    + apply existsb_eqb_not_In in E.
      destruct (IH (y :: seen)) as (H1 & H2). split.
      * constructor; [|exact H1]. rewrite H2. cbn.
        intros [_ Hn]. apply Hn. now left.
      * intros x. cbn. rewrite H2. cbn.
        destruct (string_dec y x) as [<- | Hne]; intuition congruence.
Qed.

Lemma definedScopes_In : forall l s,
  In s (definedScopes l) <-> exists a, In a l /\ fa_scope a = Some s.
Proof.
  induction l as [|a l IH]; intros s; cbn [definedScopes].
  - split; [intros [] | intros (a & [] & _)].
  - destruct (fa_scope a) as [s0|] eqn:E.
    + cbn [In]. rewrite IH. split.
      * intros [<- | (x & Hx & Hs)]; [exists a; split; [now left | exact E] | exists x; split; [now right | exact Hs]].
      * intros (x & [<- | Hx] & Hs); [left; congruence | right; eauto].
    + rewrite IH. split.
      * intros (x & Hx & Hs). exists x; split; [now right | exact Hs].
      * intros (x & [<- | Hx] & Hs); [congruence | eauto].
Qed.

(** X18.  [consolidateAnalysis] keeps one category for each pair of type
    and scope (an absent and an empty scope count as the same): no two
    categories share the pair, every file analysis has its pair among them,
    every category comes from a file analysis, and the category kept for a
    pair is that of the first file analysis with it.  The impacted areas are
    the scopes that are defined, without repetition. *)
Theorem consolidateAnalysis_groups_by_type_and_scope :
  forall fileAnalyses : list FileAnalysis,
    NoDup (map categoryKey (changeTypes (consolidateAnalysis fileAnalyses))) /\
    (forall a, In a fileAnalyses ->
       In (analysisKey a)
          (map categoryKey (changeTypes (consolidateAnalysis fileAnalyses)))) /\
    (forall c, In c (changeTypes (consolidateAnalysis fileAnalyses)) ->
       exists a, In a fileAnalyses /\ c = categoryOf a) /\
    (forall pre a post, fileAnalyses = (pre ++ a :: post)%list ->
       (forall x, In x pre -> analysisKey x <> analysisKey a) ->
       In (categoryOf a) (changeTypes (consolidateAnalysis fileAnalyses))) /\
    NoDup (impactedAreas (consolidateAnalysis fileAnalyses)) /\
    (forall s, In s (impactedAreas (consolidateAnalysis fileAnalyses)) <->
               exists a, In a fileAnalyses /\ fa_scope a = Some s).
Proof.
  intros fileAnalyses. unfold consolidateAnalysis. cbn [changeTypes impactedAreas].
  destruct (groupChanges_spec fileAnalyses []) as (H1 & H2 & H3).
  destruct (dedup_spec (definedScopes fileAnalyses) []) as (D1 & D2).
  repeat split.
  - exact H2.
  - intros a Ha. destruct (H3 a Ha) as [[] | H]; exact H.
  - intros c Hc. destruct (H1 c Hc) as (_ & a & Ha & Hca). eauto.
  - intros pre a post -> Hpre. apply groupChanges_first_wins; auto.
  - exact D1.
  - rewrite D2, definedScopes_In. tauto.
  - intros H. rewrite D2, definedScopes_In. split; [exact H | intros []].
Qed.

(** *** A second run on the same staged diff *)

Lemma get_ttlMs : forall n1 n2 key c, CommitCache.ttlMs (snd (CommitCache.get n1 n2 key c))
                                      = CommitCache.ttlMs c.
Proof.
  intros. unfold CommitCache.get.
  destruct (CommitCache.mapGet (CommitCache.cache c) key) as [e|]; auto.
  destruct (CommitCache.ttlMs c <? n1 - CommitCache.timestamp e)%Z; auto.
Qed.

Lemma checkCommitCache_ttlMs : forall w diffs c,
  CommitCache.ttlMs (snd (checkCommitCache w diffs c)) = CommitCache.ttlMs c.
Proof.
  intros w diffs c. unfold checkCommitCache.
  pose proof (get_ttlMs (nowGetCheck w) (nowGetTouch w) (cacheKeyOf diffs) c) as H.
  destruct (CommitCache.get (nowGetCheck w) (nowGetTouch w) (cacheKeyOf diffs) c)
    as [[cached|] c']; exact H.
Qed.

Lemma generateCommitMessage_Ok_inv : forall w diffs t result,
  generateCommitMessage w diffs = At t (Ok result) ->
  exists r, result = mkOutcome (commitMessage r)
                       (createAnalysisFromLLMResponse r (map filePath diffs)).
Proof.
  intros w diffs t result H. unfold generateCommitMessage in H.
  apply andThen_Ok_inv in H. destruct H as (t1 & fa & t2 & _ & H).
  apply andThen_Ok_inv in H. destruct H as (t3 & r & t4 & _ & H).
  injection H as _ <-. eauto.
Qed.

(** X19.  After a run that has generated a message, a second run on the
    same staged diff within the time to live is answered from the cache: it
    fulfils as soon as the staged diff is read, with the same message and
    the same analysis, whatever the provider would do, so no model call
    decides its result. *)
Theorem analyze_second_run_is_served_from_cache :
  forall (w w' : World) (c : CommitCache.CommitCache) (text : string)
         (t0 t0' t : nat) (result : Outcome),
    gitDiff w 0 = At t0 (Ok text) ->
    gitDiff w' 0 = At t0' (Ok text) ->
    parseDiff minimatch text noOptions <> [] ->
    fst (checkCommitCache w (parseDiff minimatch text noOptions) c) = None ->
    generateCommitMessage w (parseDiff minimatch text noOptions) = At t (Ok result) ->
    (nowGetCheck w' - nowSet w <= CommitCache.ttlMs c)%Z ->
    fst (analyzeCommit minimatch inferChangeType w c) = At (t0 + t) (Ok result) /\
    fst (analyzeCommit minimatch inferChangeType w'
           (snd (analyzeCommit minimatch inferChangeType w c)))
    = At t0' (Ok result).
Proof.
  intros w w' c text t0 t0' t result Hg Hg' Hne Hmiss Hgen Httl.
  destruct (generateCommitMessage_Ok_inv _ _ _ _ Hgen) as (r & Hres).
  remember (parseDiff minimatch text noOptions) as diffs eqn:Ed.
  destruct diffs as [|d ds]; [congruence|].
  pose proof (checkCommitCache_ttlMs w (d :: ds) c) as Httl1.
  destruct (checkCommitCache w (d :: ds) c) as [[cached|] c1] eqn:Ec; [discriminate Hmiss|].
  cbn [snd] in Httl1.
  eassert (Hrun : analyzeCommit minimatch inferChangeType w c
                  = (At (t0 + t) (Ok result),
                     CommitCache.set (nowSet w) (cacheKeyOf (d :: ds)) _ c1)).
  { unfold analyzeCommit. rewrite Hg. cbn [getStagedDiff]. rewrite <- Ed.
    cbn [List.length Nat.eqb]. rewrite Ec, Hgen. reflexivity. }
  rewrite Hrun. cbn [fst snd]. split; [reflexivity|].
  unfold analyzeCommit. rewrite Hg'. cbn [getStagedDiff]. rewrite <- Ed.
  cbn [List.length Nat.eqb].
  unfold checkCommitCache, CommitCache.get.
  rewrite set_lookup. cbn [CommitCache.timestamp]. rewrite set_ttlMs, Httl1.
  assert (E : (CommitCache.ttlMs c <? nowGetCheck w' - nowSet w)%Z = false)
    by (apply Z.ltb_ge; lia).
  rewrite E. rewrite Hres. unfold createAnalysisFromLLMResponse, orEmpty. cbn.
  reflexivity.
Qed.

(** X20.  When the model calls of a run fail with an [LLMTimeoutError] or
    an [InvalidResponseError] and the staged diff can be read again, the run
    fulfils, once it is read, with the message of the type inferred for the files, [: update ]
    and the paths joined by commas, and with an analysis that lists the
    files and has no change types, no impacted areas and no breaking
    change. *)
Theorem analyze_falls_back_on_model_failure :
  forall (w : World) (c : CommitCache.CommitCache) (text text2 : string)
         (t0 t t1 : nat) (e : JsError),
    gitDiff w 0 = At t0 (Ok text) ->
    parseDiff minimatch text noOptions <> [] ->
    fst (checkCommitCache w (parseDiff minimatch text noOptions) c) = None ->
    generateCommitMessage w (parseDiff minimatch text noOptions) = At t (Err e) ->
    instanceOf e LLMTimeoutErrorC || instanceOf e InvalidResponseErrorC = true ->
    gitDiff w 1 = At t1 (Ok text2) ->
    fst (analyzeCommit minimatch inferChangeType w c)
    = At (t0 + t + t1) (Ok (mkOutcome
                  (changeTypeName
                     (inferChangeType (map filePath (parseDiff minimatch text2 noOptions)))
                   ++ ": update "
                   ++ join ", " (map filePath (parseDiff minimatch text2 noOptions)))
                  (mkAnalysis (map filePath (parseDiff minimatch text2 noOptions))
                     EmptyString [] [] false))).
Proof.
  intros w c text text2 t0 t t1 e Hg Hne Hmiss Hgen He Hg2.
  unfold analyzeCommit. rewrite Hg. cbn [getStagedDiff].
  destruct (parseDiff minimatch text noOptions) as [|d ds] eqn:Ed; [congruence|].
  cbn [List.length Nat.eqb].
  destruct (checkCommitCache w (d :: ds) c) as [[cached|] c1]; [discriminate Hmiss|].
  rewrite Hgen. cbn [fst].
  rewrite (recover_falls_back minimatch inferChangeType w e text2 t1 He Hg2). reflexivity.
Qed.

End MoreAnalyzerFacts.

(** Two analyses with the type [feat] and the scope [api] and one with the
    type [docs]: the first of the two is kept, and the scope is listed once. *)
Lemma consolidateAnalysis_sample :
  CommitAnalyzer.consolidateAnalysis MoreNotions.sampleAnalyses
  = LLMTypes.mkAnalysis ["a.ts"; "b.ts"; "c.md"] EmptyString ["api"]
      [LLMTypes.mkCategory LLMTypes.feat (Some "api") "feat(api): first";
       LLMTypes.mkCategory LLMTypes.docs None "docs: third"]
      true.
Proof.
  reflexivity.
Qed.

(** A reply that arrives in the millisecond in which the timer expires
    wins the race. *)
Lemma callModel_reply_at_the_deadline :
  CommitAnalyzer.callModel MoreNotions.deadlineWorld (CommitAnalyzer.FileCall 0)
  = Promises.At 2000
      (Errors.Ok (LLMTypes.mkResponse "feat(x): add y" LLMTypes.feat (Some "x") false None)).
Proof.
  reflexivity.
Qed.

(** When the second reading of the staged diff, in the [catch] block, stays
    pending, so does the run. *)
Lemma analyze_pending_when_second_reading_is :
  fst (CommitAnalyzer.analyzeCommit DiffParser.simpleGlob Scenarios.inferChore
         MoreNotions.stuckFallbackWorld CacheStates.emptyCache)
  = Promises.Never.
Proof.
  vm_compute. reflexivity.
Qed.

Lemma analyze_second_run_is_served_from_cache_witness :
  CommitAnalyzer.gitDiff MoreNotions.promptWorld 0
  = Promises.At 0 (Errors.Ok ParserNotions.oneFileDiff) /\
  CommitAnalyzer.gitDiff MoreNotions.laterSilentWorld 0
  = Promises.At 0 (Errors.Ok ParserNotions.oneFileDiff) /\
  fst (CommitAnalyzer.analyzeCommit DiffParser.simpleGlob Scenarios.inferChore
         MoreNotions.promptWorld CacheStates.emptyCache)
  = Promises.At 20 (Errors.Ok MoreNotions.featOutcome) /\
  fst (CommitAnalyzer.analyzeCommit DiffParser.simpleGlob Scenarios.inferChore
         MoreNotions.laterSilentWorld
         (snd (CommitAnalyzer.analyzeCommit DiffParser.simpleGlob Scenarios.inferChore
                 MoreNotions.promptWorld CacheStates.emptyCache)))
  = Promises.At 0 (Errors.Ok MoreNotions.featOutcome).
Proof.
  assert (H1 : CommitAnalyzer.gitDiff MoreNotions.promptWorld 0
               = Promises.At 0 (Errors.Ok ParserNotions.oneFileDiff)) by reflexivity.
  assert (H2 : CommitAnalyzer.gitDiff MoreNotions.laterSilentWorld 0
               = Promises.At 0 (Errors.Ok ParserNotions.oneFileDiff)) by reflexivity.
  assert (H3 : DiffParser.parseDiff DiffParser.simpleGlob ParserNotions.oneFileDiff
                 DiffParser.noOptions <> []) by (vm_compute; discriminate).
  assert (H4 : fst (CommitAnalyzer.checkCommitCache MoreNotions.promptWorld
                      (DiffParser.parseDiff DiffParser.simpleGlob ParserNotions.oneFileDiff
                         DiffParser.noOptions) CacheStates.emptyCache) = None)
    by (vm_compute; reflexivity).
  assert (H5 : CommitAnalyzer.generateCommitMessage MoreNotions.promptWorld
                 (DiffParser.parseDiff DiffParser.simpleGlob ParserNotions.oneFileDiff
                    DiffParser.noOptions)
               = Promises.At 20 (Errors.Ok MoreNotions.featOutcome))
    by (vm_compute; reflexivity).
  assert (H6 : (CommitAnalyzer.nowGetCheck MoreNotions.laterSilentWorld
                - CommitAnalyzer.nowSet MoreNotions.promptWorld
                <= CommitCache.ttlMs CacheStates.emptyCache)%Z)
    by (vm_compute; discriminate).
  split; [exact H1|]. split; [exact H2|].
  exact (analyze_second_run_is_served_from_cache DiffParser.simpleGlob Scenarios.inferChore
           MoreNotions.promptWorld MoreNotions.laterSilentWorld CacheStates.emptyCache
           ParserNotions.oneFileDiff 0 0 20 MoreNotions.featOutcome H1 H2 H3 H4 H5 H6).
Defined.

Lemma analyze_falls_back_on_model_failure_witness :
  CommitAnalyzer.gitDiff Scenarios.malformedWorld 0
  = Promises.At 0 (Errors.Ok ParserNotions.oneFileDiff) /\
  CommitAnalyzer.gitDiff Scenarios.malformedWorld 1
  = Promises.At 0 (Errors.Ok ParserNotions.oneFileDiff) /\
  fst (CommitAnalyzer.analyzeCommit DiffParser.simpleGlob Scenarios.inferChore
         Scenarios.malformedWorld CacheStates.emptyCache)
  = Promises.At 220
      (Errors.Ok (CommitAnalyzer.mkOutcome "chore: update src/file.ts"
                    (LLMTypes.mkAnalysis ["src/file.ts"] EmptyString [] [] false))).
Proof.
  assert (H1 : CommitAnalyzer.gitDiff Scenarios.malformedWorld 0
               = Promises.At 0 (Errors.Ok ParserNotions.oneFileDiff)) by reflexivity.
  assert (H2 : CommitAnalyzer.gitDiff Scenarios.malformedWorld 1
               = Promises.At 0 (Errors.Ok ParserNotions.oneFileDiff)) by reflexivity.
  assert (H3 : DiffParser.parseDiff DiffParser.simpleGlob ParserNotions.oneFileDiff
                 DiffParser.noOptions <> []) by (vm_compute; discriminate).
  assert (H4 : fst (CommitAnalyzer.checkCommitCache Scenarios.malformedWorld
                      (DiffParser.parseDiff DiffParser.simpleGlob ParserNotions.oneFileDiff
                         DiffParser.noOptions) CacheStates.emptyCache) = None)
    by (vm_compute; reflexivity).
  assert (H5 : CommitAnalyzer.generateCommitMessage Scenarios.malformedWorld
                 (DiffParser.parseDiff DiffParser.simpleGlob ParserNotions.oneFileDiff
                    DiffParser.noOptions)
               = Promises.At 220
                   (Errors.Err (Errors.InvalidResponseError "Invalid JSON response from LLM")))
    by (vm_compute; reflexivity).
  assert (H6 : Errors.instanceOf (Errors.InvalidResponseError "Invalid JSON response from LLM")
                 Errors.LLMTimeoutErrorC
               || Errors.instanceOf (Errors.InvalidResponseError "Invalid JSON response from LLM")
                    Errors.InvalidResponseErrorC = true) by reflexivity.
  split; [exact H1|]. split; [exact H2|].
  pose proof (analyze_falls_back_on_model_failure DiffParser.simpleGlob Scenarios.inferChore
                Scenarios.malformedWorld CacheStates.emptyCache
                ParserNotions.oneFileDiff ParserNotions.oneFileDiff 0 220 0
                (Errors.InvalidResponseError "Invalid JSON response from LLM")
                H1 H3 H4 H5 H6 H2) as H.
  rewrite H. vm_compute. reflexivity.
Defined.

Lemma processDiffsConcurrently_covers_files_in_order_witness :
  exists t a,
    CommitAnalyzer.processDiffsConcurrently MoreNotions.promptWorld
      (DiffParser.parseDiff DiffParser.simpleGlob ParserNotions.twoFileDiff DiffParser.noOptions)
    = Promises.At t (Errors.Ok a) /\
    LLMTypes.files a = ["src/api.ts"; "README.md"].
Proof.
  eexists _, _.
  assert (H : CommitAnalyzer.processDiffsConcurrently MoreNotions.promptWorld
                (DiffParser.parseDiff DiffParser.simpleGlob ParserNotions.twoFileDiff
                   DiffParser.noOptions)
              = Promises.At 10
                  (Errors.Ok (CommitAnalyzer.consolidateAnalysis
                     [CommitAnalyzer.mkFileAnalysis "src/api.ts" LLMTypes.feat (Some "x")
                        "feat(x): add y" false;
                      CommitAnalyzer.mkFileAnalysis "README.md" LLMTypes.feat (Some "x")
                        "feat(x): add y" false])))
    by (vm_compute; reflexivity).
  split; [exact H|].
  rewrite (processDiffsConcurrently_covers_files_in_order _ _ _ _ H).
  vm_compute. reflexivity.
Defined.

(* ------------------------------------------------------------------ *)
(** ** Tools *)
(* ------------------------------------------------------------------ *)

Section ToolFacts.
Import JsString Errors Promises DiffParser LLMTypes CommitAnalyzer Tools MoreNotions.

Variable minimatch : string -> string -> bool.
Variable inferChangeType : list string -> ChangeType.

(** X21.  Through the tool, a failure of the version-control command
    reaches the caller as a plain [Error] that names both layers, [Failed to
    generate commit message: Failed to get staged diff: ] and then the
    message of the command; with nothing staged the tool does not fail and
    returns the text [No changes staged for commit] as the message. *)
Theorem tool_reports_git_failure_and_no_changes :
  forall (w : World) (c : CommitCache.CommitCache) (t0 : nat),
    (forall e, gitDiff w 0 = At t0 (Err e) ->
       Tools.generateCommitMessage (fst (analyzeCommit minimatch inferChangeType w c))
       = At t0 (Err (mkError ErrorC
                       ("Failed to generate commit message: Failed to get staged diff: "
                        ++ message e)))) /\
    (forall text, gitDiff w 0 = At t0 (Ok text) ->
       parseDiff minimatch text noOptions = [] ->
       Tools.generateCommitMessage (fst (analyzeCommit minimatch inferChangeType w c))
       = At t0 (Ok "No changes staged for commit")).
Proof.
  intros w c t0. split.
  - intros e H. unfold analyzeCommit. rewrite H. cbn [getStagedDiff fst].
    unfold recover, instanceOf. cbn [errClass classEqb orb delay].
    rewrite Nat.add_0_r. reflexivity.
  - intros text H Hp. unfold analyzeCommit. rewrite H. cbn [getStagedDiff].
    rewrite Hp. cbn [List.length Nat.eqb fst]. unfold recover, instanceOf.
    cbn [NoChangesError errClass classEqb delay]. rewrite Nat.add_0_r. reflexivity.
Qed.

(** X22.  [writeReviewToMarkdown] writes nothing for a path in which two
    dots occur in a row, wherever they stand: it fails with [Failed to write
    review file: Invalid file path: directory traversal not allowed] without
    calling [writeFile], and the file system is as before. *)
Theorem writeReview_rejects_parent_traversal :
  forall (writeFile : string -> string -> Result unit)
         (before after reviewContent : string) (fs : FileSystem),
    writeReviewToMarkdown writeFile (before ++ ".." ++ after) reviewContent fs
    = (Err (mkError ErrorC
              "Failed to write review file: Invalid file path: directory traversal not allowed"),
       fs).
Proof.
  intros writeFile before after reviewContent fs. unfold writeReviewToMarkdown.
  rewrite includes_middle. reflexivity.
Qed.

Lemma collectFileChanges_spec : forall gitFileDiff names acc diffs,
  collectFileChanges gitFileDiff names acc = Ok diffs ->
  exists added,
    diffs = (acc ++ added)%list /\
    map fd_file added = filter (fun f => negb (isExcludedFile f)) names /\
    (forall d, In d added -> gitFileDiff (fd_file d) = Ok (fd_diff d)).
Proof.
  induction names as [|file names IH]; intros acc diffs H; cbn [collectFileChanges] in H.
  - injection H as <-. exists []. rewrite app_nil_r.
    split; [reflexivity|]. split; [reflexivity | intros d []].
  - cbn [filter]. destruct (isExcludedFile file) eqn:E; cbn [negb].
    + now apply IH.
    + destruct (gitFileDiff file) as [diff|e] eqn:G; [|discriminate].
      apply IH in H. destruct H as (added & -> & Hm & Hd).
      exists (mkFileDiff file diff :: added). rewrite <- app_assoc.
      split; [reflexivity|]. split.
      * cbn. now rewrite Hm.
      * intros d [<- | Hin]; [exact G | now apply Hd].
Qed.

Lemma collectFileChanges_failure : forall gitFileDiff names acc e,
  collectFileChanges gitFileDiff names acc = Err e ->
  exists file, In file names /\ isExcludedFile file = false /\ gitFileDiff file = Err e.
Proof.
  induction names as [|file names IH]; intros acc e H; cbn [collectFileChanges] in H.
  - discriminate.
  - destruct (isExcludedFile file) eqn:E.
    + destruct (IH _ _ H) as (f & Hf & Hx & Hg). exists f. auto using in_cons.
    + destruct (gitFileDiff file) as [diff|e'] eqn:G.
      * destruct (IH _ _ H) as (f & Hf & Hx & Hg). exists f. auto using in_cons.
      * injection H as <-. exists file. split; [now left | auto].
Qed.

(** X23.  [getFileChangesInDirectory] returns, in the order of the
    summary, one entry with its diff for every file of the summary other
    than [dist] and [bun.lock], and no entry for these two; when it fails
    after the summary was read, the error is the one of the diff of a file
    that is not excluded, as it was thrown. *)
Theorem getFileChanges_skips_excluded_files :
  forall (summaryFiles : list string) (gitFileDiff : string -> Result string),
    (forall diffs,
       getFileChangesInDirectory (Ok summaryFiles) gitFileDiff = Ok diffs ->
       map fd_file diffs = filter (fun f => negb (isExcludedFile f)) summaryFiles /\
       (forall d, In d diffs ->
          gitFileDiff (fd_file d) = Ok (fd_diff d) /\
          In (fd_file d) summaryFiles /\
          fd_file d <> "dist" /\ fd_file d <> "bun.lock")) /\
    (forall e,
       getFileChangesInDirectory (Ok summaryFiles) gitFileDiff = Err e ->
       exists file, In file summaryFiles /\ isExcludedFile file = false /\
                    gitFileDiff file = Err e).
Proof.
  intros summaryFiles gitFileDiff. cbn [getFileChangesInDirectory]. split.
  - intros diffs H. apply collectFileChanges_spec in H.
    destruct H as (added & -> & Hm & Hd). cbn [app]. split; [exact Hm|].
    intros d Hin. split; [now apply Hd|].
    assert (Hf : In (fd_file d) (filter (fun f => negb (isExcludedFile f)) summaryFiles)).
    { rewrite <- Hm. now apply in_map. }
    apply filter_In in Hf. destruct Hf as [Hs Hx]. split; [exact Hs|].
    split; intro Heq; rewrite Heq in Hx; discriminate Hx.
  - intros e H. eapply collectFileChanges_failure; eauto.
Qed.

End ToolFacts.

(** Of the three files of the summary only the one that is not excluded is
    reported, with its diff. *)
Lemma getFileChanges_sample :
  Tools.getFileChangesInDirectory (Errors.Ok MoreNotions.sampleSummary)
    MoreNotions.sampleFileDiff
  = Errors.Ok [Tools.mkFileDiff "src/a.ts" "diff of src/a.ts"].
Proof.
  reflexivity.
Qed.
